(** * gee-rpc: a shallow embedding of the RPC runtime and its properties

    The development follows the layout of the Go sources:
    - [codec]   : codec/codec.go   (Header, Codec interface, codec tags)
    - [reflect] : the fragment of Go's reflection the registry relies on
    - [Service] : service.go       (methodType, service, registerMethods)
    - [Server]  : server.go        (Option, findService, handleRequest)
    - [Client]  : client.go        (Call, Client, pending table, parseOptions)
    - [ClientV3]: the earlier client file that still ships in the repository
    - [xclient] : xclient discovery (MultiServersDiscovery)

    Go values are modelled as follows: [uint64] is an [N] whose increment
    wraps at 2^64, [int] is a [Z] whose addition wraps at 2^63, strings are
    byte strings, maps are [gmap]s, pointers are keys of an explicit store
    where aliasing matters and [option] where only nil-ness matters.  A
    buffered channel is its address with its capacity and a buffer in the
    store; a function that sends on one returns [None] where the send
    finds no room and waits. *)

From Stdlib Require Import ZArith NArith String Ascii List Lia Bool.
From stdpp Require Import base option gmap strings list numbers.

Set Default Proof Using "Type".

(* ===================================================================== *)
(** ** Go strings *)
(* ===================================================================== *)

Module strings.

(** [strings.LastIndex(s, string(c))] for a one-byte separator: the index
    of the last occurrence of [c] in [s], or -1. *)
Fixpoint LastIndexByte (s : string) (c : ascii) : Z :=
  match s with
  | EmptyString => (-1)%Z
  | String a rest =>
      let r := LastIndexByte rest c in
      if (0 <=? r)%Z then (1 + r)%Z
      else if Ascii.eqb a c then 0%Z else (-1)%Z
  end.

(** [s[:i]] and [s[i:]] for [0 <= i <= len(s)]. *)
Fixpoint prefix (i : nat) (s : string) : string :=
  match i, s with
  | S i', String a rest => String a (prefix i' rest)
  | _, _ => EmptyString
  end.

Fixpoint suffix (i : nat) (s : string) : string :=
  match i, s with
  | S i', String _ rest => suffix i' rest
  | _, _ => s
  end.

(** [c] occurs in [s]. *)
Fixpoint contains (c : ascii) (s : string) : bool :=
  match s with
  | EmptyString => false
  | String a rest => Ascii.eqb a c || contains c rest
  end.

End strings.

(* ===================================================================== *)
(** ** Go errors *)
(* ===================================================================== *)

(** An [error] value.  [errors.New] and [fmt.Errorf] allocate a value that
    is identified by its text in this model; the package-level sentinel
    [ErrShutdown] of client.go is a value of its own, so that comparing an
    error with it is a comparison of identities, not of texts. *)
Inductive error : Type :=
  | ErrShutdown
  | errorString (msg : string).

Definition err_Error (e : error) : string :=
  match e with
  | ErrShutdown => "connection is shut down"
  | errorString msg => msg
  end.

Global Instance error_eq_dec : EqDecision error.
Proof. solve_decision. Defined.

(* ===================================================================== *)
(** ** codec/codec.go *)
(* ===================================================================== *)

Module codec.

Record Header : Type := mkHeader {
  ServiceMethod : string;
  Seq : N;
  Error : string
}.

Definition Type_ := string.
Definition GobType : Type_ := "application/gob".
Definition JsonType : Type_ := "application/json".

Definition set_Error (e : string) (h : Header) : Header :=
  mkHeader (ServiceMethod h) (Seq h) e.

(** The keys of [NewCodecFuncMap] after [init]: the tags that have a
    constructor.  A lookup of any other tag yields nil. *)
Definition NewCodecFuncMap : gset string := {[ GobType ]}.

(** The [Codec] interface over a connection state [C] and payload
    values [V].  Each operation returns the new state of the connection
    and the error of the call, if any. *)
Class Codec (V C : Type) : Type := {
  Close : C → C * option error;
  ReadHeader : C → C * (Header + error);
  (** [ReadBody(nil)] when the flag is [false], [ReadBody(call.Reply)]
      otherwise. *)
  ReadBody : bool → C → C * option error;
  Write : Header → V → C → C * option error
}.

End codec.

(* ===================================================================== *)
(** ** The fragment of package reflect used by service.go *)
(* ===================================================================== *)

Module reflect.

Inductive Kind : Type :=
  | Bool | Int | Uint64 | Float64 | String_ | Struct | Interface
  | Ptr | Map | Slice | Func | Chan.

(** A [reflect.Type].  Defined (named) types carry their package path,
    which is empty for predeclared types such as [int] and [error]; type
    literals have neither a name nor a package path. *)
Inductive rtype : Type :=
  | Defined (pkg name : string) (k : Kind)
  | PtrTo (elem : rtype)
  | SliceOf (elem : rtype)
  | MapOf (key elem : rtype)
  | Literal (k : Kind).

Definition Name (t : rtype) : string :=
  match t with
  | Defined _ name _ => name
  | _ => ""
  end.

Definition PkgPath (t : rtype) : string :=
  match t with
  | Defined pkg _ _ => pkg
  | _ => ""
  end.


Global Instance Kind_eq_dec : EqDecision Kind.
Proof. solve_decision. Defined.

Global Instance rtype_eq_dec : EqDecision rtype.
Proof. solve_decision. Defined.

(** [reflect.TypeOf(( *error)(nil)).Elem()] *)
Definition errorType : rtype := Defined "" "error" Interface.

(** A [reflect.Method] of a receiver type: its name and the function
    type with the receiver as first input. *)
Record Method : Type := mkMethod {
  MName : string;
  In_ : list rtype;
  Out : list rtype
}.

Definition NumIn (m : Method) : nat := length (In_ m).
Definition NumOut (m : Method) : nat := length (Out m).

(** [go/ast.IsExported]: whether a name starts with an upper-case
    letter.  The Unicode table behind it is not part of the repository,
    so it is an interface here. *)
Class Ast : Type := { IsExported : string → bool }.

(** [go/ast.IsExported] on names that start with an ASCII byte: there the
    first rune is that byte and its upper-case test is the range A-Z.  A
    name that starts with a byte above 0x7f is outside the domain of this
    stand-in (it answers [false] there, which says nothing about Go); it
    is used at the ASCII names of the test files only, and no statement
    is made through it at any other name. *)
Definition ascii_IsExported (name : string) : bool :=
  match name with
  | EmptyString => false
  | String a _ => (65 <=? nat_of_ascii a) && (nat_of_ascii a <=? 90)
  end.

Definition ascii_Ast : Ast := {| IsExported := ascii_IsExported |}.

End reflect.

(* ===================================================================== *)
(** ** service.go *)
(* ===================================================================== *)

Module Service.
Import reflect.

Record methodType : Type := mkMethodType {
  method : Method;
  ArgType : rtype;
  ReplyType : rtype;
  numCalls : N
}.

(** [typ] with the method set that [reflect] enumerates for it (exported
    methods only, in name order). *)
Record service : Type := mkService {
  name : string;
  typ : rtype;
  typ_methods : list Method;
  method_ : gmap string methodType
}.

Section with_ast.
Context {ast : Ast}.

Definition isExportedOrBuiltinType (t : rtype) : bool :=
  IsExported (Name t) || bool_decide (PkgPath t = "").

(** One iteration of the loop of [registerMethods]; [None] stands for
    [continue]. *)
Definition register_one (m : Method) : option methodType :=
  if negb (NumIn m =? 3) || negb (NumOut m =? 1) then None
  else
    match Out m with
    | out0 :: _ =>
        if negb (bool_decide (out0 = errorType)) then None
        else
          match In_ m with
          | _ :: argType :: replyType :: _ =>
              if negb (isExportedOrBuiltinType argType)
                 || negb (isExportedOrBuiltinType replyType)
              then None
              else Some (mkMethodType m argType replyType 0)
          | _ => None
          end
    | [] => None
    end.

(** [registerMethods]: the method map after the loop over the method
    set, starting from the empty map. *)
Fixpoint registerMethods_loop (ms : list Method)
    (acc : gmap string methodType) : gmap string methodType :=
  match ms with
  | [] => acc
  | m :: rest =>
      match register_one m with
      | Some mt => registerMethods_loop rest (<[MName m := mt]> acc)
      | None => registerMethods_loop rest acc
      end
  end.

Definition registerMethods (ms : list Method) : gmap string methodType :=
  registerMethods_loop ms ∅.

(** [newService]: [rcvr_typ] is the dynamic type of the receiver and
    [ms] its method set.  [inl msg] stands for the [log.Fatalf] exit. *)
Definition Indirect_Type (t : rtype) : rtype :=
  match t with
  | PtrTo e => e
  | _ => t
  end.

Definition newService (rcvr_typ : rtype) (ms : list Method)
    : string + service :=
  let nm := Name (Indirect_Type rcvr_typ) in
  if negb (IsExported nm)
  then inl ("rpc server: " +:+ nm +:+ " is not a valid service name")
  else inr (mkService nm rcvr_typ ms (registerMethods ms)).

(** A method is kept by [registerMethods] when, besides the receiver, it
    has two inputs, its one output is [error], and both inputs pass
    [isExportedOrBuiltinType]. *)
Definition eligible (m : Method) : Prop :=
  ∃ rcvr argType replyType,
    In_ m = [rcvr; argType; replyType] ∧ Out m = [errorType]
    ∧ isExportedOrBuiltinType argType = true
    ∧ isExportedOrBuiltinType replyType = true.


End with_ast.

End Service.

(* ===================================================================== *)
(** ** server.go *)
(* ===================================================================== *)

Module Server.
Import Service.

Definition MagicNumber : Z := 0x5add9a7.

(** Durations are counted in nanoseconds. *)
Record Option_ : Type := mkOption {
  OptMagicNumber : Z;
  CodecType : codec.Type_;
  ConnectTimeout : Z;
  HandleTimeout : Z
}.

Definition Second : Z := 1000000000.

Definition DefaultOption : Option_ :=
  mkOption MagicNumber codec.GobType (Second * 10) 0.

Record Server_ : Type := mkServer {
  serviceMap : gmap string service
}.

Definition NewServer : Server_ := mkServer ∅.

(** [Register]: [LoadOrStore] keeps the first service of a name. *)
Definition Register {ast : reflect.Ast} (server : Server_)
    (rcvr_typ : reflect.rtype) (ms : list reflect.Method)
    : option (Server_ * option error) :=
  match newService rcvr_typ ms with
  | inl _ => None
  | inr svc =>
      match serviceMap server !! name svc with
      | Some _ =>
          Some (server,
                Some (errorString ("rpc: service already defined: " +:+ name svc)))
      | None =>
          Some (mkServer (<[name svc := svc]> (serviceMap server)), None)
      end
  end.

(** [ServeConn] up to the call of [ServeCodec]: [decoded] is what the
    JSON decoder makes of the first bytes of the connection.  Each of the
    three failures is logged and the connection is closed without a frame
    being written. *)
Inductive handshake : Type :=
  | OptionsError (err : error)
  | InvalidMagicNumber (m : Z)
  | InvalidCodecType (t : codec.Type_)
  | Serving (opt : Option_).

Definition ServeConn (decoded : error + Option_) : handshake :=
  match decoded with
  | inl err => OptionsError err
  | inr opt =>
      if negb (OptMagicNumber opt =? MagicNumber)%Z
      then InvalidMagicNumber (OptMagicNumber opt)
      else if negb (bool_decide (CodecType opt ∈ codec.NewCodecFuncMap))
      then InvalidCodecType (CodecType opt)
      else Serving opt
  end.

(** [findService]: the three named results [(svc, mtype, err)]. *)
Definition findService (server : Server_) (serviceMethod : string)
    : option service * option methodType * option error :=
  let dot := strings.LastIndexByte serviceMethod "." in
  if (dot <? 0)%Z then
    (None, None,
     Some (errorString
             ("rpc server: service/method request ill-formed: " +:+ serviceMethod)))
  else
    let serviceName := strings.prefix (Z.to_nat dot) serviceMethod in
    let methodName := strings.suffix (Z.to_nat (dot + 1)) serviceMethod in
    match serviceMap server !! serviceName with
    | None =>
        (None, None,
         Some (errorString ("rpc server: can't find service " +:+ serviceName)))
    | Some svc =>
        match method_ svc !! methodName with
        | None =>
            (Some svc, None,
             Some (errorString ("rpc server: can't find method " +:+ methodName)))
        | Some mtype => (Some svc, Some mtype, None)
        end
    end.

End Server.

(* ===================================================================== *)
(** ** server.go: handleRequest as a transition system *)
(* ===================================================================== *)

(** [handleRequest] runs two tasks that meet on the unbuffered channels
    [called] and [sent]: the handler itself and the goroutine that invokes
    the method.  Each statement that touches shared state (the channels,
    [req.h], the codec) is one action; a send on an unbuffered channel and
    the matching receive are one joint action.  [time.After] is a timer
    whose expiry is an action that is enabled while the handler waits in
    its [select].  A schedule is a list of actions; an action that is not
    enabled leaves the state as it is. *)
Module Handler.
Import codec.

(** [fmt.Sprintf("%s", d)] for a [time.Duration]. *)
Class DurationFmt : Type := { Duration_String : Z → string }.

Section with_body.
Context {V : Type} `{!DurationFmt}.

(** The payload of a response frame: the sentinel [invalidRequest] or
    a reply value. *)
Inductive body : Type :=
  | invalidRequest
  | replyBody (v : V).

Definition frame : Type := Header * body.

(** Program points of the invoking goroutine. *)
Inductive inv_pc : Type :=
  | ICall            (* err := req.svc.call(...) *)
  | ISendCalled      (* called <- struct{}{} *)
  | IBranch          (* if err != nil *)
  | ISendResponse    (* server.sendResponse(c, req.h, invalidRequest, sending) *)
  | ISendSent        (* sent <- struct{}{} *)
  | IDone.

(** Program points of the handler. *)
Inductive main_pc : Type :=
  | MStart           (* if timeout == 0 *)
  | MRecvCalled      (* <-called, in the branch timeout == 0 *)
  | MSelect          (* select { case <-time.After(timeout) | case <-called } *)
  | MTimedOut        (* server.sendResponse in the timer case *)
  | MRecvSent        (* <-sent *)
  | MReturned.

Inductive action : Type :=
  | ActCall | ActCalled | ActBranch | ActInvSend | ActSent
  | ActStart | ActTimer | ActMainSend.

Record hstate : Type := mkH {
  ipc : inv_pc;
  mpc : main_pc;
  req_h : Header;          (* the shared header req.h *)
  wire : list frame;       (* frames handed to c.Write, in order *)
  wg_done : bool;          (* the deferred wg.Done() has run *)
  log : list action        (* history: the actions executed so far *)
}.

Definition init (h : Header) : hstate :=
  mkH ICall MStart h [] false [].

Definition timeout_message (timeout : Z) : string :=
  "rpc server: request handle timeout: except within "
    +:+ Duration_String timeout.

(** [sendResponse]: one frame is written under the [sending] mutex. *)
Definition sendResponse (h : Header) (b : body) (w : list frame)
    : list frame := w ++ [(h, b)].

(** [result] is what [req.svc.call] returns for this request. *)
Definition step (timeout : Z) (result : option error)
    (a : action) (s : hstate) : option hstate :=
  let '(mkH i m h w d l) := s in
  match a, i, m with
  | ActCall, ICall, _ => Some (mkH ISendCalled m h w d (l ++ [a]))
  | ActStart, _, MStart =>
      Some (mkH i (if (timeout =? 0)%Z then MRecvCalled else MSelect)
                h w d (l ++ [a]))
  | ActCalled, ISendCalled, MRecvCalled
  | ActCalled, ISendCalled, MSelect =>
      Some (mkH IBranch MRecvSent h w d (l ++ [a]))
  | ActBranch, IBranch, _ =>
      match result with
      | Some err =>
          Some (mkH ISendResponse m (set_Error (err_Error err) h) w d (l ++ [a]))
      | None => Some (mkH IDone m h w d (l ++ [a]))
      end
  | ActInvSend, ISendResponse, _ =>
      Some (mkH ISendSent m h (sendResponse h invalidRequest w) d (l ++ [a]))
  | ActSent, ISendSent, MRecvSent =>
      Some (mkH IDone MReturned h w true (l ++ [a]))
  | ActTimer, _, MSelect =>
      Some (mkH i MTimedOut (set_Error (timeout_message timeout) h) w d
                (l ++ [a]))
  | ActMainSend, _, MTimedOut =>
      Some (mkH i MReturned h (sendResponse h invalidRequest w) true
                (l ++ [a]))
  | _, _, _ => None
  end.

Definition exec (timeout : Z) (result : option error)
    (a : action) (s : hstate) : hstate :=
  default s (step timeout result a s).

Definition run (timeout : Z) (result : option error)
    (sched : list action) (s : hstate) : hstate :=
  fold_left (λ s a, exec timeout result a s) sched s.

(** No action is enabled: every task has finished or is blocked. *)
Definition stuck (timeout : Z) (result : option error) (s : hstate) : Prop :=
  ∀ a, step timeout result a s = None.

(** The states that a handler started on the header [h0] can be in,
    ordered by the program point of the handler and then of the invoking
    goroutine: what has been written, what [req.h] holds, and which joint
    actions are in the history. *)
Definition reachable_shape (timeout : Z) (result : option error)
    (h0 : Header) (s : hstate) : Prop :=
  let hT := set_Error (timeout_message timeout) h0 in
  let hE e := set_Error (err_Error e) h0 in
  ((ActTimer ∈ log s ∨ ActMainSend ∈ log s) → timeout ≠ 0%Z)
  ∧ match mpc s, ipc s with
    | MStart, (ICall | ISendCalled) =>
        req_h s = h0 ∧ wire s = [] ∧ wg_done s = false
    | MRecvCalled, (ICall | ISendCalled) =>
        timeout = 0%Z ∧ req_h s = h0 ∧ wire s = [] ∧ wg_done s = false
    | MSelect, (ICall | ISendCalled) =>
        timeout ≠ 0%Z ∧ req_h s = h0 ∧ wire s = [] ∧ wg_done s = false
    | MTimedOut, (ICall | ISendCalled) =>
        timeout ≠ 0%Z ∧ req_h s = hT ∧ wire s = [] ∧ wg_done s = false
        ∧ ActTimer ∈ log s
    | MReturned, (ICall | ISendCalled) =>
        timeout ≠ 0%Z ∧ req_h s = hT ∧ wire s = [(hT, invalidRequest)]
        ∧ wg_done s = true ∧ ActTimer ∈ log s ∧ ActMainSend ∈ log s
    | MRecvSent, IBranch =>
        req_h s = h0 ∧ wire s = [] ∧ wg_done s = false ∧ ActCalled ∈ log s
    | MRecvSent, ISendResponse =>
        ∃ e, result = Some e ∧ req_h s = hE e ∧ wire s = []
             ∧ wg_done s = false ∧ ActCalled ∈ log s
    | MRecvSent, ISendSent =>
        ∃ e, result = Some e ∧ req_h s = hE e
             ∧ wire s = [(hE e, invalidRequest)]
             ∧ wg_done s = false ∧ ActCalled ∈ log s
    | MRecvSent, IDone =>
        result = None ∧ req_h s = h0 ∧ wire s = [] ∧ wg_done s = false
        ∧ ActCalled ∈ log s
    | MReturned, IDone =>
        ∃ e, result = Some e ∧ req_h s = hE e
             ∧ wire s = [(hE e, invalidRequest)]
             ∧ wg_done s = true ∧ ActCalled ∈ log s ∧ ActSent ∈ log s
    | _, _ => False
    end.

(** The two ways out of the wait exclude each other.  Once the timer case
    is in the history, the handler is past its [select] and the goroutine
    is still before or at its send on [called]; once the hand-over of
    [called] is in the history, the handler waits for [sent] or has
    returned and the goroutine is past that send. *)
Definition history_shape (s : hstate) : Prop :=
  (ActTimer ∈ log s →
     (mpc s = MTimedOut ∨ mpc s = MReturned)
     ∧ (ipc s = ICall ∨ ipc s = ISendCalled))
  ∧ (ActCalled ∈ log s →
       (mpc s = MRecvSent ∨ mpc s = MReturned)
       ∧ ipc s ≠ ICall ∧ ipc s ≠ ISendCalled).

End with_body.

Arguments body : clear implicits.
Arguments frame : clear implicits.
Arguments hstate : clear implicits.

End Handler.

(* ===================================================================== *)
(** ** client.go *)
(* ===================================================================== *)

Module Client.
Import Server.

(** [uint64] increment. *)
Definition uint64_incr (n : N) : N := ((n + 1) mod 2 ^ 64)%N.

(** Addresses of [Call] objects.  A [Done] channel is its address together
    with its capacity, which [make] fixes and [cap] reads. *)
Definition ptr : Type := positive.
Definition chan : Type := positive * nat.

(** [fmt.Errorf(format)] without operands: the text of the error it
    builds.  Package [fmt] is not part of the repository; what is used of
    it is that a format without a verb is rendered as it stands. *)
Class Errorf : Type := {
  Errorf_text : string → string;
  Errorf_plain : ∀ s, strings.contains "%" s = false → Errorf_text s = s
}.

(** [parseOptions]; a nil [*Option] is [None]. *)
Definition parseOptions (opts : list (option Option_))
    : option Option_ * option error :=
  match opts with
  | [] | None :: _ => (Some DefaultOption, None)
  | Some opt :: rest =>
      if negb (length opts =? 1) then
        (None, Some (errorString "number of options is more than 1"))
      else
        let opt :=
          if bool_decide (CodecType opt = "")
          then mkOption (OptMagicNumber opt) (CodecType DefaultOption)
                        (ConnectTimeout opt) (HandleTimeout opt)
          else opt in
        (Some opt, None)
  end.

Section with_codec.
Context {V C : Type} `{!codec.Codec V C} `{!Errorf}.

Record Call : Type := mkCall {
  Seq : N;
  ServiceMethod : string;
  Args : V;
  Reply : V;
  Error : option error;
  Done : chan
}.

Definition set_Seq (s : N) (c : Call) : Call :=
  mkCall s (ServiceMethod c) (Args c) (Reply c) (Error c) (Done c).
Definition set_Error (e : option error) (c : Call) : Call :=
  mkCall (Seq c) (ServiceMethod c) (Args c) (Reply c) e (Done c).

(** The client together with the objects it points to: the [Call]s
    (shared with the callers) and the buffers of the [Done] channels.
    The mutexes are not fields: every function below that locks [mu]
    holds it for its whole body and is one atomic operation. *)
Record Client_ : Type := mkClient {
  c : C;
  opt : Option_;
  header : codec.Header;
  seq : N;
  pending : gmap N ptr;
  closing : bool;
  shutdown : bool;
  calls : gmap ptr Call;
  chans : gmap chan (list ptr)
}.

Definition set_c (x : C) (cl : Client_) : Client_ :=
  mkClient x (opt cl) (header cl) (seq cl) (pending cl) (closing cl)
           (shutdown cl) (calls cl) (chans cl).
Definition set_pending (x : gmap N ptr) (cl : Client_) : Client_ :=
  mkClient (c cl) (opt cl) (header cl) (seq cl) x (closing cl)
           (shutdown cl) (calls cl) (chans cl).
Definition set_seq (x : N) (cl : Client_) : Client_ :=
  mkClient (c cl) (opt cl) (header cl) x (pending cl) (closing cl)
           (shutdown cl) (calls cl) (chans cl).
Definition set_closing (x : bool) (cl : Client_) : Client_ :=
  mkClient (c cl) (opt cl) (header cl) (seq cl) (pending cl) x
           (shutdown cl) (calls cl) (chans cl).
Definition set_shutdown (x : bool) (cl : Client_) : Client_ :=
  mkClient (c cl) (opt cl) (header cl) (seq cl) (pending cl) (closing cl)
           x (calls cl) (chans cl).
Definition set_calls (x : gmap ptr Call) (cl : Client_) : Client_ :=
  mkClient (c cl) (opt cl) (header cl) (seq cl) (pending cl) (closing cl)
           (shutdown cl) x (chans cl).
Definition set_chans (x : gmap chan (list ptr)) (cl : Client_) : Client_ :=
  mkClient (c cl) (opt cl) (header cl) (seq cl) (pending cl) (closing cl)
           (shutdown cl) (calls cl) x.

(** [newClientCodec]: the fresh client (the receive loop it starts is
    the caller of [removeCall] and [terminateCalls] below). *)
Definition newClientCodec (cc : C) (o : Option_) : Client_ :=
  mkClient cc o (codec.mkHeader "" 0 "") 1 ∅ false false ∅ ∅.

(** [NewClient]: [conn] is the connection that the codec is built over
    and [encode_err] the result of writing the option on it as JSON. *)
Definition NewClient (conn : C) (encode_err : option error) (o : Option_)
    : option Client_ * option error :=
  if negb (bool_decide (CodecType o ∈ codec.NewCodecFuncMap)) then
    (None, Some (errorString ("invalid codec type " +:+ CodecType o)))
  else
    match encode_err with
    | Some err => (None, Some err)
    | None => (Some (newClientCodec conn o), None)
    end.

(** The buffer of a channel, and whether a send finds room in it. *)
Definition buffer (ch : chan) (cl : Client_) : list ptr :=
  default [] (chans cl !! ch).

Definition has_room (ch : chan) (cl : Client_) : bool :=
  (length (buffer ch cl) <? ch.2)%nat.

(** [call.done()]: [c.Done <- c].  The send goes through when the buffer
    has room; otherwise it waits, and [None] says that [done] does not
    return from this state (no receiver is part of the state, so a send
    on a channel of capacity 0 always waits). *)
Definition done (p : ptr) (cl : Client_) : option Client_ :=
  match calls cl !! p with
  | Some call =>
      if has_room (Done call) cl then
        Some (set_chans (<[Done call := buffer (Done call) cl ++ [p]]>
                           (chans cl)) cl)
      else None
  | None => Some cl
  end.

(** [<-ch] by the owner of a call: the oldest element leaves the buffer.
    On an empty buffer the receive waits and the state stays. *)
Definition recv (ch : chan) (cl : Client_) : Client_ :=
  match buffer ch cl with
  | _ :: rest => set_chans (<[ch := rest]> (chans cl)) cl
  | [] => cl
  end.

(** [call.Error = err] *)
Definition assign (err : error) (p : ptr) (cl : Client_) : Client_ :=
  set_calls (alter (set_Error (Some err)) p (calls cl)) cl.

(** [call.Error = err; call.done()] *)
Definition complete (err : error) (p : ptr) (cl : Client_) : option Client_ :=
  done p (assign err p cl).

Definition Close (cl : Client_) : Client_ * option error :=
  if closing cl then (cl, Some ErrShutdown)
  else
    let cl := set_closing true cl in
    let '(cc, err) := codec.Close (c cl) in
    (set_c cc cl, err).

Definition IsAvailable (cl : Client_) : bool :=
  negb (shutdown cl) && negb (closing cl).

Definition registerCall (call : ptr) (cl : Client_)
    : Client_ * (N * option error) :=
  if closing cl || shutdown cl then (cl, (0%N, Some ErrShutdown))
  else
    let s := seq cl in
    let cl := set_calls (alter (set_Seq s) call (calls cl)) cl in
    let cl := set_pending (<[s := call]> (pending cl)) cl in
    let cl := set_seq (uint64_incr (seq cl)) cl in
    (cl, (s, None)).

Definition removeCall (s : N) (cl : Client_) : Client_ * option ptr :=
  let call := pending cl !! s in
  (set_pending (delete s (pending cl)) cl, call).

Definition set_header (x : codec.Header) (cl : Client_) : Client_ :=
  mkClient (c cl) (opt cl) x (seq cl) (pending cl) (closing cl)
           (shutdown cl) (calls cl) (chans cl).

(** [send], run without interruption.  [call] points to a live [Call]
    (it comes from [Go], which has just allocated it).  [None]: a send on
    [Done] waits, and [send] does not return. *)
Definition send (call : ptr) (cl : Client_) : option Client_ :=
  let '(cl, (s, err)) := registerCall call cl in
  match err with
  | Some e => complete e call cl
  | None =>
      match calls cl !! call with
      | None => Some cl
      | Some cv =>
          let cl := set_header (codec.mkHeader (ServiceMethod cv) s "") cl in
          let '(cc, werr) := codec.Write (header cl) (Args cv) (c cl) in
          let cl := set_c cc cl in
          match werr with
          | None => Some cl
          | Some e =>
              let '(cl, call') := removeCall s cl in
              match call' with
              | Some p => complete e p cl
              | None => Some cl
              end
          end
      end
  end.

(** One iteration of the loop of [receive]; the second component is
    the value of [err] at the end of the iteration.  [None]: the send on
    [Done] waits, and the loop with it. *)
Definition receive_iter (cl : Client_) : option (Client_ * option error) :=
  let '(cc, rh) := codec.ReadHeader (c cl) in
  let cl := set_c cc cl in
  match rh with
  | inr err => Some (cl, Some err)
  | inl h =>
      let '(cl, call) := removeCall (codec.Seq h) cl in
      match call with
      | None =>
          let '(cc, err) := codec.ReadBody false (c cl) in
          Some (set_c cc cl, err)
      | Some p =>
          if negb (bool_decide (codec.Error h = "")) then
            let cl := assign (errorString (Errorf_text (codec.Error h))) p cl in
            let '(cc, err) := codec.ReadBody false (c cl) in
            cl' ← done p (set_c cc cl); Some (cl', err)
          else
            let '(cc, err) := codec.ReadBody true (c cl) in
            let cl := set_c cc cl in
            let cl :=
              match err with
              | Some e =>
                  assign (errorString ("reading body " +:+ err_Error e)) p cl
              | None => cl
              end in
            cl' ← done p cl; Some (cl', err)
      end
  end.

(** The cancellation branch of [Call]: [client.removeCall(call.Seq)]. *)
Definition cancel (call : ptr) (cl : Client_) : Client_ :=
  match calls cl !! call with
  | Some cv => (removeCall (Seq cv) cl).1
  | None => cl
  end.

(** The loop of [terminateCalls] over the entries [l] of the pending
    table: the state it reaches, and whether it ran to its end.  It stops
    at the first send that has to wait, the [Error] of that call already
    set. *)
Fixpoint terminate_loop (err : error) (l : list (N * ptr)) (cl : Client_)
    : Client_ * bool :=
  match l with
  | [] => (cl, true)
  | kv :: rest =>
      let cl := assign err kv.2 cl in
      match done kv.2 cl with
      | Some cl' => terminate_loop err rest cl'
      | None => (cl, false)
      end
  end.

(** [terminateCalls].  Go leaves the order of the iteration over the
    map open; the model takes the order of [map_to_list].  [None]: a
    send on [Done] waits, and [terminateCalls] does not return; it keeps
    [sending] and [mu] locked meanwhile. *)
Definition terminateCalls (err : error) (cl : Client_) : option Client_ :=
  let '(cl', returned) :=
    terminate_loop err (map_to_list (pending cl)) (set_shutdown true cl) in
  if returned then Some cl' else None.

(** The sends that [terminateCalls] has to make on [ch]: one for each
    entry of the pending table whose call has [ch] as its [Done]. *)
Definition sends_on (ch : chan) (l : list (N * ptr)) (cl : Client_) : nat :=
  length (filter (λ kv, Done <$> calls cl !! kv.2 = Some ch) l).

(** Every channel that [terminateCalls] has to send on has room for all
    the sends it gets. *)
Definition room (cl : Client_) : Prop :=
  ∀ ch, sends_on ch (map_to_list (pending cl)) cl ≠ 0%nat →
        (length (buffer ch cl) + sends_on ch (map_to_list (pending cl)) cl
         ≤ ch.2)%nat.

(** [&Call{...}] in [Go]: the new [Call] gets an address of its own. *)
Definition new_call (cv : Call) (cl : Client_) : Client_ * ptr :=
  let p := fresh (dom (calls cl)) in
  (set_calls (<[p := cv]> (calls cl)) cl, p).

(** [p] has been completed with [err]: its [Error] is [err] and it has
    been sent on its [Done] channel. *)
Definition completed (err : error) (p : ptr) (cl : Client_) : Prop :=
  ∃ cv, calls cl !! p = Some cv ∧ Error cv = Some err
        ∧ p ∈ buffer (Done cv) cl.

(** *** Runs of a client

    The tasks that share a client (the callers of [send] and [Call], the
    receive loop, the user calling [Close]) touch its bookkeeping only
    through the operations below; a run is any sequence of them.  Those
    that lock [mu] for their whole body are atomic.  A completion sets
    [Error] and then sends on [Done]; when the send has to wait, the task
    is parked with [Error] set ([OpComplete]), and the send goes through
    later ([OpDone]) once a caller has received from the channel
    ([OpRecv]).  A [terminateCalls] whose sends all find room is one
    operation; one that has to wait is parked at the state it has reached
    ([OpTerminate]), and what is left of its loop are further completions
    of the run.  That a parked [terminateCalls] keeps [mu] and [sending],
    and that [send] keeps [sending], only excludes interleavings: as far
    as the pending table, the counter, the two flags, the calls and the
    channels go, every execution of the program is a run, and what holds
    of all runs holds of the program. *)
Inductive op : Type :=
  | OpNew (cv : Call)
  | OpRegister (call : ptr)
  | OpRemove (s : N)
  | OpTerminate (err : error)
  | OpClose
  | OpComplete (err : error) (call : ptr)
  | OpDone (call : ptr)
  | OpRecv (ch : chan).

(** What a run leaves in the pending table, and what it takes out. *)
Inductive event : Type :=
  | EvRegistered (s : N) (call : ptr)
  | EvRemoved (s : N) (call : ptr).

Definition exec_op (o : op) (cl : Client_) : Client_ * list event :=
  match o with
  | OpNew cv => ((new_call cv cl).1, [])
  | OpRegister call =>
      let '(cl', (s, err)) := registerCall call cl in
      (cl', match err with None => [EvRegistered s call] | Some _ => [] end)
  | OpRemove s =>
      let '(cl', r) := removeCall s cl in
      (cl', match r with Some call => [EvRemoved s call] | None => [] end)
  | OpTerminate err =>
      ((terminate_loop err (map_to_list (pending cl))
          (set_shutdown true cl)).1, [])
  | OpClose => ((Close cl).1, [])
  | OpComplete err call =>
      (default (assign err call cl) (complete err call cl), [])
  | OpDone call => (default cl (done call cl), [])
  | OpRecv ch => (recv ch cl, [])
  end.

Definition run_ops (ops : list op) (st : Client_ * list event)
    : Client_ * list event :=
  fold_left (λ st o, let '(cl', evs) := exec_op o st.1 in (cl', st.2 ++ evs))
            ops st.

Definition registered (evs : list event) : list N :=
  omap (λ e, match e with EvRegistered s _ => Some s | _ => None end) evs.

Definition removed (evs : list event) : list N :=
  omap (λ e, match e with EvRemoved s _ => Some s | _ => None end) evs.

(** What holds of a client and the events of the run that led to it.  The
    part under the bound holds as long as the counter has not wrapped. *)
Definition run_inv (cl : Client_) (evs : list event) : Prop :=
  let n := length (registered evs) in
  seq cl = ((1 + N.of_nat n) mod 2 ^ 64)%N
  ∧ (∀ k p, pending cl !! k = Some p → EvRegistered k p ∈ evs)
  ∧ (∀ k p, EvRemoved k p ∈ evs → EvRegistered k p ∈ evs)
  ∧ ((N.of_nat n < 2 ^ 64)%N →
       registered evs = N.of_nat <$> List.seq 1 n
       ∧ (∀ k p, pending cl !! k = Some p → (1 ≤ k ≤ N.of_nat n)%N)
       ∧ (∀ k, k ∈ removed evs → pending cl !! k = None)
       ∧ NoDup (removed evs)
       ∧ (∀ k p, EvRegistered k p ∈ evs →
            pending cl !! k = Some p ∨ EvRemoved k p ∈ evs)).

(** The client after the calls [f 0], ..., [f (n-1)] have been registered
    one after the other. *)
Definition register_run (f : N → ptr) (n : N) (cl : Client_) : Client_ :=
  N.peano_rect (λ _, Client_) cl (λ k acc, (registerCall (f k) acc).1) n.

End with_codec.

Arguments Call : clear implicits.
Arguments Client_ : clear implicits.
Arguments op : clear implicits.

End Client.

(* ===================================================================== *)
(** ** The earlier client file (no call context, no dial timeout) *)
(* ===================================================================== *)

(** The repository also ships the client of the previous stage.  Its
    bookkeeping functions are those of [Client]; its [parseOptions] has one
    more assignment. *)
Module ClientV3.
Import Server.

Definition parseOptions (opts : list (option Option_))
    : option Option_ * option error :=
  match opts with
  | [] | None :: _ => (Some DefaultOption, None)
  | Some opt :: rest =>
      if negb (length opts =? 1) then
        (None, Some (errorString "number of options is more than 1"))
      else
        let opt := mkOption (OptMagicNumber DefaultOption) (CodecType opt)
                            (ConnectTimeout opt) (HandleTimeout opt) in
        let opt :=
          if bool_decide (CodecType opt = "")
          then mkOption (OptMagicNumber opt) (CodecType DefaultOption)
                        (ConnectTimeout opt) (HandleTimeout opt)
          else opt in
        (Some opt, None)
  end.

End ClientV3.

(* ===================================================================== *)
(** ** xclient: MultiServersDiscovery *)
(* ===================================================================== *)

Module xclient.

Definition SelectMode : Type := Z.
Definition RandomSelect : SelectMode := 0%Z.
Definition RoundRobinSelect : SelectMode := 1%Z.

Definition MaxInt32 : Z := (2 ^ 31 - 1)%Z.
Definition MaxInt : Z := (2 ^ 63 - 1)%Z.

(** Go's [int]: addition wraps around at 2^63, [%] truncates. *)
Definition int_wrap (z : Z) : Z := ((z + 2 ^ 63) mod 2 ^ 64 - 2 ^ 63)%Z.
Definition int_add (a b : Z) : Z := int_wrap (a + b).
Definition int_rem (a b : Z) : Z := Z.rem a b.

(** [*rand.Rand]: [Intn n] draws from [[0, n)] for [n > 0] and moves the
    generator on. *)
Class Rand (R : Type) : Type := {
  Intn : Z → R → Z * R;
  Intn_range : ∀ n r, (0 < n)%Z → (0 ≤ (Intn n r).1 < n)%Z
}.

(** Slices of strings: a window into a backing array of the heap.  The
    nil slice has length 0. *)
Definition loc : Type := positive.
Record slice : Type := mkSlice { arr : loc; off : nat; len : nat }.
Abbreviation heap := (gmap loc (list string)).

Definition elems (h : heap) (s : slice) : list string :=
  take (len s) (drop (off s) (default [] (h !! arr s))).

(** [s[i]]; [None] is the run-time panic of an index out of range. *)
Definition slice_get (h : heap) (s : slice) (i : Z) : option string :=
  if ((0 <=? i) && (i <? Z.of_nat (len s)))%Z
  then elems h s !! Z.to_nat i
  else None.

(** [s[i] = v] *)
Definition slice_set (s : slice) (i : nat) (v : string) (h : heap)
    : option heap :=
  if (i <? len s)%nat
  then Some (alter (λ a, <[(off s + i)%nat := v]> a) (arr s) h)
  else None.

(** [make([]string, n, n)] *)
Definition make (n : nat) (h : heap) : heap * slice :=
  let l := fresh (dom h) in
  (<[l := replicate n ""]> h, mkSlice l 0 n).

(** [copy(dst, src)] *)
Definition copy (dst src : slice) (h : heap) : heap :=
  let vals := take (min (len dst) (len src)) (elems h src) in
  alter (λ a, take (off dst) a ++ vals ++ drop (off dst + length vals) a)
        (arr dst) h.

(** A slice that is nil or lies within a live backing array. *)
Definition valid (h : heap) (s : slice) : Prop :=
  len s = 0%nat
  ∨ ∃ a, h !! arr s = Some a ∧ (off s + len s ≤ length a)%nat.

Section with_rand.
Context {R : Type} {rnd : Rand R}.

Record MultiServersDiscovery : Type := mkDiscovery {
  r : R;
  servers : slice;
  index : Z
}.

(** [r0] is the generator seeded from the clock. *)
Definition NewMultiServerDiscovery (r0 : R) (servers : slice)
    : MultiServersDiscovery :=
  let '(i, r1) := Intn (MaxInt32 - 1) r0 in
  mkDiscovery r1 servers i.

Definition Refresh (d : MultiServersDiscovery)
    : MultiServersDiscovery * option error := (d, None).

Definition Update (servers : slice) (d : MultiServersDiscovery)
    : MultiServersDiscovery * option error :=
  (mkDiscovery (r d) servers (index d), None).

(** [Get]; the outer [None] is a panic. *)
Definition Get (mode : SelectMode) (h : heap) (d : MultiServersDiscovery)
    : option (MultiServersDiscovery * (string * option error)) :=
  let n := Z.of_nat (len (servers d)) in
  if (n =? 0)%Z then
    Some (d, ("", Some (errorString "rpc discovery: no available servers")))
  else if (mode =? RandomSelect)%Z then
    let '(k, r1) := Intn n (r d) in
    s ← slice_get h (servers d) k;
    Some (mkDiscovery r1 (servers d) (index d), (s, None))
  else if (mode =? RoundRobinSelect)%Z then
    s ← slice_get h (servers d) (int_rem (index d) n);
    Some (mkDiscovery (r d) (servers d) (int_rem (int_add (index d) 1) n),
          (s, None))
  else
    Some (d, ("", Some (errorString "rpc discovery: not supported select mode"))).

Definition GetAll (h : heap) (d : MultiServersDiscovery)
    : heap * MultiServersDiscovery * (slice * option error) :=
  let '(h1, servers') := make (len (servers d)) h in
  let h2 := copy servers' (servers d) h1 in
  (h2, d, (servers', None)).

(** [k] calls of [Get] in a row and the servers they return, oldest
    first; [None] when one of them fails. *)
Fixpoint Get_repeat (mode : SelectMode) (k : nat) (h : heap)
    (d : MultiServersDiscovery)
    : option (MultiServersDiscovery * list string) :=
  match k with
  | O => Some (d, [])
  | S k' =>
      match Get mode h d with
      | Some (d1, (s, None)) =>
          match Get_repeat mode k' h d1 with
          | Some (d2, l) => Some (d2, s :: l)
          | None => None
          end
      | _ => None
      end
  end.

End with_rand.

Arguments MultiServersDiscovery : clear implicits.

(** A linear congruential generator, to run the discovery on. *)
Definition lcg_next (s : Z) : Z :=
  ((s * 6364136223846793005 + 1442695040888963407) mod 2 ^ 64)%Z.

Global Program Instance lcg_Rand : Rand Z :=
  {| Intn n s := ((lcg_next s mod n)%Z, lcg_next s) |}.
Next Obligation. intros n s Hn; simpl. apply Z.mod_pos_bound; lia. Qed.

End xclient.


(* ===================================================================== *)
(** ** The receivers of the test files *)
(* ===================================================================== *)

(** The types [Foo], [Foo2], [Foo3], [Foo4], [Args] and [args] of the
    service tests, as [reflect] presents them when a pointer to the
    receiver is registered.  Only exported methods are in a method set, so
    [Foo.sum] is absent. *)
Module fixtures.
Import reflect.

Definition pkg : string := "github.com/yqchilde/gee-rpc".
Definition int : rtype := Defined "" "int" Int.
Definition Args : rtype := Defined pkg "Args" Struct.
Definition Foo : rtype := Defined pkg "Foo" Int.
Definition Foo3 : rtype := Defined pkg "Foo3" Int.

(** [func (f Foo) Sum(args Args, reply *int) error] *)
Definition Foo_Sum : Method :=
  mkMethod "Sum" [PtrTo Foo; Args; PtrTo int] [errorType].
Definition Foo_methods : list Method := [Foo_Sum].


(** [func (f Foo3) Sum(args Args, reply *int) *int] *)
Definition Foo3_Sum : Method :=
  mkMethod "Sum" [PtrTo Foo3; Args; PtrTo int] [PtrTo int].
Definition Foo3_methods : list Method := [Foo3_Sum].


(** The service that [newService(&foo)] builds, and a server holding it. *)
Definition Foo_Sum_type : Service.methodType :=
  Service.mkMethodType Foo_Sum Args (PtrTo int) 0.
Definition Foo_service : Service.service :=
  Service.mkService "Foo" (PtrTo Foo) Foo_methods {[ "Sum" := Foo_Sum_type ]}.
Definition Foo_server : Server.Server_ :=
  Server.mkServer {[ "Foo" := Foo_service ]}.

(** A connection on which every write succeeds and nothing arrives. *)
Global Instance quiet_codec : codec.Codec string unit := {|
  codec.Close := λ c, (c, None);
  codec.ReadHeader := λ c, (c, inr (errorString "EOF"));
  codec.ReadBody := λ _ c, (c, None);
  codec.Write := λ _ _ c, (c, None)
|}.

(** Error texts of the fixtures have no verb. *)
Global Instance verbless_Errorf : Client.Errorf := {|
  Client.Errorf_text := λ s, s;
  Client.Errorf_plain := λ s _, eq_refl
|}.

(** A client with the call of the first test scenario in flight; its
    [Done] is the channel of capacity 1 that [Call] makes. *)
Definition Sum_call : Client.Call string :=
  Client.mkCall 0 "Foo.Sum" "{1 3}" "" None (1%positive, 1%nat).
Definition fresh_client : Client.Client_ string unit :=
  Client.newClientCodec tt Server.DefaultOption.
Definition busy_client : Client.Client_ string unit :=
  let '(cl, p) := Client.new_call Sum_call fresh_client in
  (Client.registerCall p cl).1.

(** A connection on which the headers of its state arrive one after the
    other, each with a body that decodes, and every write succeeds. *)
Global Instance replay_codec : codec.Codec string (list codec.Header) := {|
  codec.Close := λ c, (c, None);
  codec.ReadHeader := λ c,
    match c with
    | h :: rest => (rest, inl h)
    | [] => ([], inr (errorString "EOF"))
    end;
  codec.ReadBody := λ _ c, (c, None);
  codec.Write := λ _ _ c, (c, None)
|}.

(** The client of the first scenario with the reply to its call on the
    way. *)
Definition Sum_reply : codec.Header := codec.mkHeader "Foo.Sum" 1 "".
Definition answered_client : Client.Client_ string (list codec.Header) :=
  let '(cl, p) :=
    Client.new_call Sum_call
      (Client.newClientCodec [Sum_reply] Server.DefaultOption) in
  (Client.registerCall p cl).1.

(** A client with two calls in flight that share one [Done] channel of
    capacity 1, as [Go] allows. *)
Definition shared_client : Client.Client_ string unit :=
  let '(cl, p1) := Client.new_call Sum_call fresh_client in
  let cl := (Client.registerCall p1 cl).1 in
  let '(cl, p2) := Client.new_call Sum_call cl in
  (Client.registerCall p2 cl).1.

(** A discovery over three servers that live in one backing array. *)
Definition servers_heap : gmap positive (list string) :=
  {[ 1%positive := ["tcp@10.0.0.1:9001"; "tcp@10.0.0.2:9002"; "tcp@10.0.0.3:9003"] ]}.
Definition servers_slice : xclient.slice := xclient.mkSlice 1%positive 0 3.
Definition three_servers : xclient.MultiServersDiscovery Z :=
  xclient.mkDiscovery 2024%Z servers_slice 7%Z.

End fixtures.

(* ===================================================================== *)
(** * Properties *)
(* ===================================================================== *)

(** ** Splitting a string at its last separator *)

Section string_facts.
Import strings.

Lemma LastIndexByte_lower s c : (-1 ≤ LastIndexByte s c)%Z.
Proof.
  induction s as [|a s IH]; simpl; [lia|].
  destruct (Z.leb_spec 0 (LastIndexByte s c)); [lia|].
  destruct (Ascii.eqb a c); lia.
Qed.

Lemma LastIndexByte_absent s c :
  contains c s = false → LastIndexByte s c = (-1)%Z.
Proof.
  induction s as [|a s IH]; simpl; [done|].
  intros [Ha Hs]%orb_false_iff. rewrite IH, Ha by done. done.
Qed.

Lemma LastIndexByte_present s c :
  contains c s = true → (0 ≤ LastIndexByte s c)%Z.
Proof.
  induction s as [|a s IH]; simpl; [done|].
  intros H. destruct (Z.leb_spec 0 (LastIndexByte s c)) as [|Hneg]; [lia|].
  destruct (Ascii.eqb a c); [lia|]. simpl in H. apply IH in H. lia.
Qed.

Lemma string_app_cons a s t : String a s +:+ t = String a (s +:+ t).
Proof. reflexivity. Qed.

Lemma string_app_nil t : "" +:+ t = t.
Proof. reflexivity. Qed.

Lemma string_length_app s t :
  String.length (s +:+ t) = String.length s + String.length t.
Proof.
  induction s as [|a s IH]; [done|].
  rewrite string_app_cons. simpl. by rewrite IH.
Qed.

Lemma string_app_assoc s t u : (s +:+ t) +:+ u = s +:+ t +:+ u.
Proof.
  induction s as [|a s IH]; [done|].
  rewrite !string_app_cons. by rewrite IH.
Qed.

Lemma LastIndexByte_app s c t :
  contains c t = false →
  LastIndexByte (s +:+ String c t) c = Z.of_nat (String.length s).
Proof.
  intros Ht. induction s as [|a s IH].
  - rewrite string_app_nil. simpl. rewrite (LastIndexByte_absent t c Ht).
    simpl. by rewrite Ascii.eqb_refl.
  - rewrite string_app_cons. cbn [LastIndexByte]. rewrite IH.
    destruct (Z.leb_spec 0 (Z.of_nat (String.length s))); [|lia].
    cbn [String.length]. lia.
Qed.

Lemma prefix_app s t : prefix (String.length s) (s +:+ t) = s.
Proof.
  induction s as [|a s IH].
  - rewrite string_app_nil. by destruct t.
  - rewrite string_app_cons. simpl. by rewrite IH.
Qed.

Lemma suffix_app s t : suffix (String.length s) (s +:+ t) = t.
Proof.
  induction s as [|a s IH].
  - rewrite string_app_nil. by destruct t.
  - rewrite string_app_cons. simpl. done.
Qed.

Lemma split_last s c :
  contains c s = true →
  ∃ a b, s = a +:+ String c b ∧ contains c b = false.
Proof.
  induction s as [|x s IH]; simpl; [done|].
  destruct (contains c s) eqn:Hs.
  - intros _. destruct IH as (a & b & -> & Hb); [done|].
    by exists (String x a), b.
  - rewrite orb_false_r. intros ->%Ascii.eqb_eq.
    by exists "", s.
Qed.

End string_facts.

(** ** server.go: findService *)

Section findService_facts.
Import strings Server Service.

(** C7.  [findService] splits the request name at its last dot.  A name
    without a dot is rejected as ill-formed; for [s.m] with no dot in [m]
    the service [s] is looked up, then the method [m] in its method map,
    and each miss has its own error text; when both are found they are
    returned without an error.  Every name with a dot has such a split. *)
Theorem findService_spec (server : Server_) :
  (∀ m, contains "." m = false →
     findService server m =
       (None, None,
        Some (errorString ("rpc server: service/method request ill-formed: " +:+ m))))
  ∧ (∀ s m, contains "." m = false →
       findService server (s +:+ "." +:+ m) =
         match serviceMap server !! s with
         | None =>
             (None, None,
              Some (errorString ("rpc server: can't find service " +:+ s)))
         | Some svc =>
             match method_ svc !! m with
             | None =>
                 (Some svc, None,
                  Some (errorString ("rpc server: can't find method " +:+ m)))
             | Some mtype => (Some svc, Some mtype, None)
             end
         end)
  ∧ (∀ sm, contains "." sm = true →
       ∃ s m, sm = s +:+ "." +:+ m ∧ contains "." m = false).
Proof.
  split; [|split].
  - intros m Hm. unfold findService.
    by rewrite (LastIndexByte_absent _ _ Hm).
  - intros s m Hm. unfold findService.
    change (s +:+ "." +:+ m) with (s +:+ String "." m).
    rewrite (LastIndexByte_app s "." m Hm).
    destruct (Z.ltb_spec (Z.of_nat (String.length s)) 0) as [|_]; [lia|].
    rewrite Nat2Z.id.
    replace (Z.to_nat (Z.of_nat (String.length s) + 1))
      with (String.length (s +:+ ".")).
    2:{ rewrite string_length_app. simpl. lia. }
    rewrite prefix_app.
    replace (s +:+ String "." m) with ((s +:+ ".") +:+ m).
    2:{ by rewrite string_app_assoc. }
    by rewrite suffix_app.
  - intros sm Hsm. exact (split_last sm "." Hsm).
Qed.

End findService_facts.

Lemma findService_spec_witness :
  Server.findService fixtures.Foo_server "Foo.Sum"
    = (Some fixtures.Foo_service, Some fixtures.Foo_Sum_type, None)
  ∧ Server.findService fixtures.Foo_server "FooSum"
    = (None, None,
       Some (errorString "rpc server: service/method request ill-formed: FooSum"))
  ∧ Server.findService fixtures.Foo_server "Bar.Sum"
    = (None, None, Some (errorString "rpc server: can't find service Bar"))
  ∧ Server.findService fixtures.Foo_server "Foo.Add"
    = (Some fixtures.Foo_service, None,
       Some (errorString "rpc server: can't find method Add")).
Proof.
  destruct (findService_spec fixtures.Foo_server) as (Hill & Hsplit & _).
  split; [|split; [|split]].
  - exact (Hsplit "Foo" "Sum" eq_refl).
  - exact (Hill "FooSum" eq_refl).
  - exact (Hsplit "Bar" "Sum" eq_refl).
  - exact (Hsplit "Foo" "Add" eq_refl).
Defined.

(** ** service.go: registerMethods *)

Section registerMethods_facts.
Import reflect Service.
Context {ast : Ast}.

Lemma register_one_Some m mt :
  register_one m = Some mt →
  eligible m ∧ method mt = m ∧ In_ m !! 1 = Some (ArgType mt)
  ∧ In_ m !! 2 = Some (ReplyType mt) ∧ numCalls mt = 0%N.
Proof.
  unfold register_one, eligible, NumIn, NumOut.
  destruct m as [nm ins outs]; simpl.
  destruct ins as [|rcvr [|a [|rp [|x ins]]]]; simpl; try done;
    destruct outs as [|o [|o' outs]]; simpl; try done.
  case_bool_decide as Ho; simpl; [|done]. subst o.
  destruct (isExportedOrBuiltinType a) eqn:Ha; simpl; [|done].
  destruct (isExportedOrBuiltinType rp) eqn:Hr; simpl; [|done].
  intros [= <-]. simpl. split_and!; try done.
  by exists rcvr, a, rp.
Qed.

Lemma register_one_eligible m : eligible m → is_Some (register_one m).
Proof.
  intros (rcvr & a & rp & Hin & Hout & Ha & Hr).
  unfold register_one, NumIn, NumOut. rewrite Hin, Hout. simpl.
  rewrite ?bool_decide_eq_true_2 by done. simpl. rewrite Ha, Hr. simpl. eauto.
Qed.

Lemma registerMethods_loop_lookup ms acc name mt :
  registerMethods_loop ms acc !! name = Some mt →
  acc !! name = Some mt
  ∨ (method mt ∈ ms ∧ MName (method mt) = name
     ∧ register_one (method mt) = Some mt).
Proof.
  revert acc. induction ms as [|m ms IH]; intros acc; simpl; [by left|].
  destruct (register_one m) as [mt'|] eqn:Hm.
  - intros [Hacc|(Hin & Hnm & Hreg)]%IH.
    + destruct (decide (MName m = name)) as [<-|Hne].
      * rewrite lookup_insert_eq in Hacc. injection Hacc as <-.
        destruct (register_one_Some _ _ Hm) as (_ & Hmeth & _).
        right. rewrite Hmeth. split_and!; [left|done|done].
      * rewrite lookup_insert_ne in Hacc by done. by left.
    + right. split_and!; [by right|done|done].
  - intros [Hacc|(Hin & Hnm & Hreg)]%IH; [by left|].
    right. split_and!; [by right|done|done].
Qed.

Lemma registerMethods_loop_is_Some ms acc name :
  is_Some (registerMethods_loop ms acc !! name)
  ↔ is_Some (acc !! name) ∨ ∃ m, m ∈ ms ∧ MName m = name ∧ eligible m.
Proof.
  revert acc. induction ms as [|m ms IH]; intros acc; simpl.
  - split; [by left|]. intros [?|(m & Hm & _)]; [done|]. by inversion Hm.
  - destruct (register_one m) as [mt|] eqn:Hm; rewrite IH.
    + destruct (register_one_Some _ _ Hm) as (Hel & _).
      split.
      * intros [Hacc|(m' & Hin & Hnm & Hel')].
        -- destruct (decide (MName m = name)) as [<-|Hne].
           ++ right. exists m. split_and!; [left|done|done].
           ++ rewrite lookup_insert_ne in Hacc by done. by left.
        -- right. exists m'. split_and!; [by right|done|done].
      * intros [Hacc|(m' & Hin & Hnm & Hel')].
        -- left. destruct (decide (MName m = name)) as [<-|Hne].
           ++ rewrite lookup_insert_eq. eauto.
           ++ by rewrite lookup_insert_ne.
        -- apply elem_of_cons in Hin as [->|Hin].
           ++ left. rewrite <- Hnm, lookup_insert_eq. eauto.
           ++ right. by exists m'.
    + split.
      * intros [Hacc|(m' & Hin & Hnm & Hel')]; [by left|].
        right. exists m'. split_and!; [by right|done|done].
      * intros [Hacc|(m' & Hin & Hnm & Hel')]; [by left|].
        apply elem_of_cons in Hin as [->|Hin].
        -- apply register_one_eligible in Hel'. rewrite Hm in Hel'.
           by destruct Hel'.
        -- right. by exists m'.
Qed.


End registerMethods_facts.



(** ** server.go: handleRequest *)

Section handleRequest_facts.
Import codec Handler.
Context {V : Type} {fmt : DurationFmt}.
Implicit Types (s : hstate V) (hd : Header) (timeout : Z) (result : option error).

Lemma reachable_shape_init timeout result hd :
  reachable_shape timeout result hd (init (V := V) hd).
Proof. split; simpl; [|done]. intros [H|H]; inversion H. Qed.

Local Ltac log_solver :=
  repeat match goal with
         | |- _ ∈ _ ++ _ => apply elem_of_app
         | H : _ ∈ _ ++ [_] |- _ =>
             apply elem_of_app in H as [H|H%list_elem_of_singleton]
         | H : _ ∨ _ |- _ => destruct H
         end;
  try discriminate; eauto using list_elem_of_singleton with nocore.

Lemma reachable_shape_step timeout result hd a s s' :
  reachable_shape timeout result hd s →
  step timeout result a s = Some s' →
  reachable_shape timeout result hd s'.
Proof.
  destruct s as [i m h w d l]. unfold reachable_shape; simpl.
  intros [Hlog Hst] Hstep.
  destruct a, i, m; simpl in Hstep; try discriminate; try done;
    try (destruct result as [e|] eqn:Hres);
    try (destruct (Z.eqb_spec timeout 0));
    simplify_eq/=; destruct_and?; try (destruct Hst as (e' & ?)); destruct_and?;
    simplify_eq/=;
    (split;
     [ intros HH; log_solver; try (apply Hlog; by eauto); try done
     | repeat first [ eexists; split; [reflexivity|] | split ];
       try done; try (apply elem_of_app; by eauto);
       try (apply elem_of_app; right; by apply list_elem_of_singleton) ]).
Qed.

Lemma reachable_shape_exec timeout result hd a s :
  reachable_shape timeout result hd s →
  reachable_shape timeout result hd (exec timeout result a s).
Proof.
  intros Hs. unfold exec.
  destruct (step timeout result a s) as [s'|] eqn:Hstep; simpl; [|done].
  by eapply reachable_shape_step.
Qed.

Lemma reachable_shape_run timeout result hd sched s :
  reachable_shape timeout result hd s →
  reachable_shape timeout result hd (run timeout result sched s).
Proof.
  revert s. induction sched as [|a sched IH]; intros s Hs; simpl; [done|].
  apply IH. by apply reachable_shape_exec.
Qed.

(** C1 (what the code does on the success path).  When the method returns
    without an error and no handle timeout is set, then whatever the
    schedule, no frame is ever written, the handler never returns and the
    deferred [wg.Done] never runs: the reply that the method has produced
    stays in [req.replyv]. *)
Theorem handleRequest_success_writes_nothing hd sched :
  let s := run 0 None sched (init (V := V) hd) in
  wire s = [] ∧ mpc s ≠ MReturned ∧ wg_done s = false.
Proof.
  pose proof (reachable_shape_run 0 None hd sched _
                (reachable_shape_init 0 None hd)) as [_ Hst].
  simpl. destruct (run 0 None sched (init hd)) as [i m h w d l].
  simpl in *.
  destruct m, i; try done; destruct_and?; try done;
    try (destruct Hst as (e & ? & _); done).
Qed.

(** The schedule that runs into the wait on [sent]: the goroutine has
    returned, the handler is at [<-sent], and no action is enabled. *)
Lemma handleRequest_success_blocks hd :
  let s := run 0 None [ActCall; ActStart; ActCalled; ActBranch]
               (init (V := V) hd) in
  ipc s = IDone ∧ mpc s = MRecvSent ∧ wire s = [] ∧ stuck 0 None s.
Proof. simpl. split_and!; try done. by intros []. Qed.

(** With a handle timeout the success path fares no better: the only frame
    that can appear is the timeout response, and it carries the sentinel
    body. *)
Lemma handleRequest_success_no_reply timeout hd sched :
  let s := run timeout None sched (init (V := V) hd) in
  wire s = []
  ∨ wire s = [(set_Error (timeout_message timeout) hd, invalidRequest)].
Proof.
  pose proof (reachable_shape_run timeout None hd sched _
                (reachable_shape_init timeout None hd)) as [_ Hst].
  simpl. destruct (run timeout None sched (init hd)) as [i m h w d l].
  simpl in *.
  destruct m, i; try done; destruct_and?; eauto;
    destruct Hst as (e & ? & _); done.
Qed.

(** On the error path exactly the error response is written before the
    handler returns through [sent]. *)
Lemma handleRequest_error_frame timeout e hd sched :
  let s := run timeout (Some e) sched (init (V := V) hd) in
  mpc s = MReturned →
  wire s = [(set_Error (err_Error e) hd, invalidRequest)]
  ∨ wire s = [(set_Error (timeout_message timeout) hd, invalidRequest)].
Proof.
  pose proof (reachable_shape_run timeout (Some e) hd sched _
                (reachable_shape_init timeout (Some e) hd)) as [_ Hst].
  simpl. destruct (run timeout (Some e) sched (init hd)) as [i m h w d l].
  simpl in *. intros ->.
  destruct i; try done; destruct_and?; eauto.
  destruct Hst as (e' & [= <-] & _ & -> & _). by left.
Qed.

Lemma wire_after_return timeout result hd a s s' :
  reachable_shape timeout result hd s →
  mpc s = MReturned → step timeout result a s = Some s' →
  wire s' = wire s ∧ mpc s' = MReturned.
Proof.
  destruct s as [i m h w d l]; unfold reachable_shape; simpl.
  intros [_ Hst] ->.
  destruct a, i; simpl; try discriminate; try done; intros [= <-]; done.
Qed.

Lemma wire_after_return_run timeout result hd sched s :
  reachable_shape timeout result hd s →
  mpc s = MReturned → wire (run timeout result sched s) = wire s.
Proof.
  revert s. induction sched as [|a sched IH]; intros s Hsh Hs; simpl; [done|].
  pose proof (reachable_shape_exec _ _ _ a _ Hsh) as Hsh'.
  unfold exec in *.
  destruct (step timeout result a s) as [s'|] eqn:Hstep; simpl in *.
  - destruct (wire_after_return _ _ _ _ _ _ Hsh Hs Hstep) as [<- Hs'].
    by apply IH.
  - by apply IH.
Qed.

Lemma history_shape_init hd : history_shape (init (V := V) hd).
Proof. split; simpl; intros H; inversion H. Qed.

Lemma history_shape_step timeout result hd a s s' :
  reachable_shape timeout result hd s → history_shape s →
  step timeout result a s = Some s' → history_shape s'.
Proof.
  destruct s as [i m h w d l]. unfold reachable_shape, history_shape; simpl.
  intros [_ Hst] [Htimer Hcalled] Hstep.
  destruct a, i, m; simpl in Hstep; try discriminate; try done;
    try (destruct result as [e|]);
    try (destruct (Z.eqb_spec timeout 0));
    simplify_eq/=;
    (split; intros [Hin|Hin%list_elem_of_singleton]%elem_of_app;
     try discriminate;
     try (apply Htimer in Hin; destruct Hin as [[?|?] [?|?]]; done);
     try (apply Hcalled in Hin; destruct Hin as ([?|?] & ? & ?); done);
     try (split_and!; eauto; done)).
Qed.

Lemma shapes_run timeout result hd sched s :
  reachable_shape timeout result hd s → history_shape s →
  reachable_shape timeout result hd (run timeout result sched s)
  ∧ history_shape (run timeout result sched s).
Proof.
  revert s. induction sched as [|a sched IH]; intros s Hr Hh; simpl; [done|].
  apply IH.
  - by apply reachable_shape_exec.
  - unfold exec. destruct (step timeout result a s) as [s'|] eqn:Hstep;
      simpl; [|done]. by eapply history_shape_step.
Qed.

(** C5.  Take the state [s] that any schedule reaches.

    With a handle timeout [d ≠ 0]: while the handler waits in its [select]
    the timer case can fire, and firing it and sending leaves exactly the
    timeout frame, after which nothing is written.  Whatever the schedule,
    once the timer case has been taken the invocation has not handed over
    [called], [req.h.Error] is the timeout text for [d], nothing has been
    written as long as the handler has not sent, its send is enabled, and
    once it has returned the frames written for the request are exactly
    the one timeout frame with the sentinel body; as long as the timer
    case has not been taken, the frames written are none or exactly the
    frame of the method's error.  A handler that has
    returned without receiving [called] has taken the timer case and has
    written exactly that frame; a handler that has returned after
    receiving [called] has written exactly the frame of the method's
    error.  So no handler returns without a frame.

    With [d = 0]: the handler never enters the [select], neither the timer
    case nor its write is ever in the history, a handler that has returned
    has received both [called] and [sent], and whatever the schedule the
    frames written are none or exactly the frame of the method's error. *)
Theorem handleRequest_timeout_spec timeout result hd sched :
  let s := run timeout result sched (init (V := V) hd) in
  let hT := mkHeader (ServiceMethod hd) (Seq hd)
              ("rpc server: request handle timeout: except within "
                 +:+ Duration_String timeout) in
  (timeout ≠ 0%Z →
     (mpc s = MSelect →
        ∃ s1 s2,
          step timeout result ActTimer s = Some s1
          ∧ step timeout result ActMainSend s1 = Some s2
          ∧ mpc s2 = MReturned
          ∧ wire s2 = [(hT, invalidRequest)]
          ∧ ∀ sched', wire (run timeout result sched' s2) = wire s2)
     ∧ (ActTimer ∈ log s →
          (ActCalled ∉ log s) ∧ req_h s = hT
          ∧ (mpc s = MTimedOut ∧ wire s = []
             ∧ is_Some (step timeout result ActMainSend s)
             ∨ mpc s = MReturned ∧ wire s = [(hT, invalidRequest)]))
     ∧ (mpc s = MReturned → ActCalled ∉ log s →
          ActTimer ∈ log s ∧ wire s = [(hT, invalidRequest)])
     ∧ (mpc s = MReturned → ActCalled ∈ log s →
          (ActTimer ∉ log s)
          ∧ ∃ e, result = Some e
                 ∧ wire s = [(set_Error (err_Error e) hd, invalidRequest)])
     ∧ (ActTimer ∉ log s →
          wire s = []
          ∨ ∃ e, result = Some e
                 ∧ wire s = [(set_Error (err_Error e) hd, invalidRequest)]))
  ∧ (timeout = 0%Z →
       (mpc s ≠ MSelect) ∧ (mpc s ≠ MTimedOut)
       ∧ (ActTimer ∉ log s) ∧ (ActMainSend ∉ log s)
       ∧ (mpc s = MReturned → ActCalled ∈ log s ∧ ActSent ∈ log s)
       ∧ (wire s = []
          ∨ ∃ e, result = Some e
                 ∧ wire s = [(set_Error (err_Error e) hd, invalidRequest)])).
Proof.
  destruct (shapes_run timeout result hd sched _
              (reachable_shape_init timeout result hd)
              (history_shape_init hd)) as [[Hlog Hst] [Htimer Hcalled]].
  simpl. destruct (run timeout result sched (init hd)) as [i m h w d l].
  simpl in *. split.
  - intros Hne. split_and!.
    + intros ->.
      assert (h = hd ∧ w = []) as [-> ->].
      { destruct i; try done; by destruct_and?. }
      assert (i = ICall ∨ i = ISendCalled) as Hi.
      { destruct i; try done; eauto. }
      do 2 eexists. split; [by destruct i|]. split; [done|].
      split; [done|]. split; [done|].
      intros sched'. apply (wire_after_return_run _ _ hd); [|done].
      split; simpl.
      * by intros _.
      * destruct Hi as [-> | ->]; split_and!; try done;
          rewrite ?elem_of_app, ?list_elem_of_singleton; eauto.
    + intros Hin. destruct (Htimer Hin) as [Hm Hi].
      split.
      { intros Hc. destruct (Hcalled Hc) as (_ & ? & ?).
        by destruct Hi as [-> | ->]. }
      destruct Hm as [-> | ->], Hi as [-> | ->]; destruct_and?;
        (split; [done|]); first [ left; split_and!; by eauto | right; done ].
    + intros -> Hnc.
      destruct i; try done; destruct_and?; try done.
      destruct Hst as (e & _ & _ & _ & _ & Hc & _). done.
    + intros -> Hc. destruct (Hcalled Hc) as (_ & Hi1 & Hi2).
      split.
      { intros Hin. destruct (Htimer Hin) as [_ [? | ?]]; done. }
      destruct i; try done.
      destruct Hst as (e & -> & _ & -> & _). by exists e.
    + intros Hnt.
      destruct m, i; try done; destruct_and?; try done; try (by left);
        destruct Hst as (e & -> & _ & -> & _); eauto.
  - intros ->.
    assert ((ActTimer ∉ l) ∧ (ActMainSend ∉ l)) as [Ht Hm].
    { split; intros Hin; by apply Hlog; eauto. }
    split_and!; try done.
    + intros ->. destruct i; try done; by destruct_and?.
    + intros ->. destruct i; try done; by destruct_and?.
    + intros ->. destruct i; try done; destruct_and?; try done.
      by destruct Hst as (e & _ & _ & _ & _ & ? & ?).
    + destruct m, i; try done; destruct_and?; try done; try (by left);
        destruct Hst as (e & -> & _ & -> & _); eauto.
Qed.

End handleRequest_facts.

Lemma handleRequest_timeout_spec_witness :
  let fmt := {| Handler.Duration_String := λ _, "1s" |} in
  let hd := codec.mkHeader "Bar.Timeout" 1 "" in
  Handler.wire
    (Handler.run (V := unit) Server.Second None
       [Handler.ActStart; Handler.ActCall; Handler.ActTimer; Handler.ActMainSend]
       (Handler.init hd))
  = [(codec.mkHeader "Bar.Timeout" 1
        "rpc server: request handle timeout: except within 1s",
      Handler.invalidRequest)]
  ∧ Handler.wire
      (Handler.run (V := unit) Server.Second None
         [Handler.ActStart; Handler.ActTimer; Handler.ActCall;
          Handler.ActMainSend; Handler.ActCalled]
         (Handler.init hd))
    = [(codec.mkHeader "Bar.Timeout" 1
          "rpc server: request handle timeout: except within 1s",
        Handler.invalidRequest)]
  ∧ Handler.wire
      (Handler.run (V := unit) 0 (Some (errorString "boom"))
         [Handler.ActStart; Handler.ActCall; Handler.ActTimer;
          Handler.ActCalled; Handler.ActBranch; Handler.ActInvSend;
          Handler.ActSent]
         (Handler.init hd))
    = [(codec.mkHeader "Bar.Timeout" 1 "boom", Handler.invalidRequest)].
Proof.
  intros fmt hd. split; [|split].
  - destruct (handleRequest_timeout_spec (V := unit) Server.Second None hd
                [Handler.ActStart; Handler.ActCall])
      as [Hfire _].
    destruct (Hfire ltac:(discriminate)) as (Hsel & _).
    destruct (Hsel eq_refl) as (s1 & s2 & H1 & H2 & _ & Hwire & _).
    injection H1 as <-. injection H2 as <-. exact Hwire.
  - destruct (handleRequest_timeout_spec (V := unit) Server.Second None hd
                [Handler.ActStart; Handler.ActTimer; Handler.ActCall;
                 Handler.ActMainSend; Handler.ActCalled])
      as [Hfire _].
    destruct (Hfire ltac:(discriminate)) as (_ & _ & Hret & _ & _).
    refine (proj2 (Hret eq_refl _)).
    simpl. intros Hin. repeat (apply elem_of_cons in Hin as [Hin|Hin];
                               [discriminate Hin|]).
    inversion Hin.
  - destruct (handleRequest_timeout_spec (V := unit) 0
                (Some (errorString "boom")) hd
                [Handler.ActStart; Handler.ActCall; Handler.ActTimer;
                 Handler.ActCalled; Handler.ActBranch; Handler.ActInvSend;
                 Handler.ActSent])
      as [_ Hzero].
    destruct (Hzero eq_refl) as (_ & _ & _ & _ & _ & [Hw|(e & He & Hw)]).
    + discriminate Hw.
    + injection He as <-. exact Hw.
Defined.

(** ** client.go: parseOptions, in both client files *)

Section parseOptions_facts.
Import Server.

(** C4 (as the code has it).  Both versions return the default option for
    no argument and for a nil first argument, whatever follows it, and
    reject two or more arguments of which the first is not nil.  For one
    option, the current client keeps every field and fills in the default
    codec type only when the field is empty; the earlier client does the
    same but first overwrites the magic number with the default one. *)
Theorem parseOptions_spec :
  (Client.parseOptions [] = (Some DefaultOption, None)
   ∧ (∀ rest, Client.parseOptions (None :: rest) = (Some DefaultOption, None))
   ∧ (∀ o1 o2 rest,
        Client.parseOptions (Some o1 :: o2 :: rest)
        = (None, Some (errorString "number of options is more than 1")))
   ∧ (∀ o, Client.parseOptions [Some o]
           = (Some (mkOption (OptMagicNumber o)
                      (if bool_decide (CodecType o = "")
                       then codec.GobType else CodecType o)
                      (ConnectTimeout o) (HandleTimeout o)),
              None)))
  ∧ (ClientV3.parseOptions [] = (Some DefaultOption, None)
     ∧ (∀ rest, ClientV3.parseOptions (None :: rest) = (Some DefaultOption, None))
     ∧ (∀ o1 o2 rest,
          ClientV3.parseOptions (Some o1 :: o2 :: rest)
          = (None, Some (errorString "number of options is more than 1")))
     ∧ (∀ o, ClientV3.parseOptions [Some o]
             = (Some (mkOption MagicNumber
                        (if bool_decide (CodecType o = "")
                         then codec.GobType else CodecType o)
                        (ConnectTimeout o) (HandleTimeout o)),
                None))).
Proof.
  split; split_and!; try done.
  - intros [m ct c h]; unfold Client.parseOptions; simpl.
    by case_bool_decide.
  - intros [m ct c h]; unfold ClientV3.parseOptions; simpl.
    by case_bool_decide.
Qed.

(** C4 (as stated).  The option of the magic-number test, handed to the
    earlier client's [parseOptions], comes back with the default magic
    number in place of its own. *)
Lemma parseOptions_overwrites_MagicNumber :
  ¬ (∀ o, OptMagicNumber <$> (ClientV3.parseOptions [Some o]).1
          = Some (OptMagicNumber o)).
Proof.
  intros H. specialize (H (mkOption 123456 codec.GobType 0 0)).
  discriminate H.
Qed.

End parseOptions_facts.

(** ** client.go: Close and registerCall on a client that is going down *)

Section client_facts.
Import Client.
Context {V C : Type} {cdc : codec.Codec V C}.
Implicit Types (cl : Client_ V C) (call p : ptr) (err : error).

(** C8.  A [Close] on a client that is not closing sets [closing], closes
    the codec and returns the codec's result; everything else stays.  A
    [Close] on a client that is closing, and in particular any [Close]
    after the first, returns [ErrShutdown] and leaves the client as it
    is.  [registerCall] on a client that is closing or shut down returns
    [ErrShutdown] with sequence number 0 and leaves the client, the call
    included, as it is.  [ErrShutdown] reads "connection is shut down" and
    is not the same value as another error with that text. *)
Theorem Close_and_registerCall_when_down cl :
  (closing cl = false →
     Close cl = (set_c (codec.Close (c cl)).1 (set_closing true cl),
                 (codec.Close (c cl)).2)
     ∧ closing (Close cl).1 = true
     ∧ c (Close cl).1 = (codec.Close (c cl)).1
     ∧ seq (Close cl).1 = seq cl ∧ pending (Close cl).1 = pending cl
     ∧ shutdown (Close cl).1 = shutdown cl)
  ∧ (closing cl = true → Close cl = (cl, Some ErrShutdown))
  ∧ Close (Close cl).1 = ((Close cl).1, Some ErrShutdown)
  ∧ (closing cl = true ∨ shutdown cl = true →
       ∀ call, registerCall call cl = (cl, (0%N, Some ErrShutdown)))
  ∧ err_Error ErrShutdown = "connection is shut down"
  ∧ ErrShutdown ≠ errorString "connection is shut down".
Proof.
  split_and!; try done.
  - intros Hc. unfold Close. rewrite Hc.
    destruct (codec.Close (c (set_closing true cl))) as [cc e] eqn:Hcc.
    simpl in Hcc. rewrite Hcc. done.
  - intros Hc. unfold Close. by rewrite Hc.
  - unfold Close at 2 3. destruct (closing cl) eqn:Hc.
    + simpl. unfold Close. by rewrite Hc.
    + destruct (codec.Close (c (set_closing true cl))) as [cc e]. done.
  - intros Hdown call. unfold registerCall.
    destruct Hdown as [-> | ->]; [done|]. by rewrite orb_true_r.
Qed.

End client_facts.

Lemma Close_and_registerCall_when_down_witness :
  let cl := fixtures.busy_client in
  Client.closing (Client.Close cl).1 = true
  ∧ Client.Close (Client.Close cl).1 = ((Client.Close cl).1, Some ErrShutdown)
  ∧ Client.registerCall 2%positive (Client.Close cl).1
    = ((Client.Close cl).1, (0%N, Some ErrShutdown)).
Proof.
  intros cl.
  destruct (Close_and_registerCall_when_down cl) as (Hfirst & _ & _ & _).
  destruct (Hfirst eq_refl) as (_ & Hclosing & _).
  destruct (Close_and_registerCall_when_down (Client.Close cl).1)
    as (_ & Hagain & _ & Hreg & _).
  split; [exact Hclosing|]. split.
  - exact (Hagain Hclosing).
  - exact (Hreg (or_introl Hclosing) 2%positive).
Defined.

(** ** client.go: the pending table and the sequence counter *)

Section pending_facts.
Import Client.
Context {V C : Type} {cdc : codec.Codec V C}.
Implicit Types (cl : Client_ V C) (call p q : ptr) (err : error) (s k : N)
  (ch : chan).

(** *** Completion of calls *)

Lemma assign_frame err p cl :
  pending (assign err p cl) = pending cl ∧ seq (assign err p cl) = seq cl
  ∧ closing (assign err p cl) = closing cl
  ∧ shutdown (assign err p cl) = shutdown cl
  ∧ chans (assign err p cl) = chans cl
  ∧ (∀ q, Done <$> calls (assign err p cl) !! q = Done <$> calls cl !! q)
  ∧ (∀ q, is_Some (calls cl !! q) → is_Some (calls (assign err p cl) !! q)).
Proof.
  unfold assign; simpl. split_and!; try done.
  - intros q. destruct (decide (p = q)) as [->|Hne].
    + rewrite lookup_alter_eq. by destruct (calls cl !! q).
    + by rewrite lookup_alter_ne.
  - intros q Hq. destruct (decide (p = q)) as [->|Hne].
    + rewrite lookup_alter_eq. by apply fmap_is_Some.
    + by rewrite lookup_alter_ne.
Qed.

Lemma done_Some p cl cl' :
  done p cl = Some cl' →
  pending cl' = pending cl ∧ seq cl' = seq cl
  ∧ closing cl' = closing cl ∧ shutdown cl' = shutdown cl
  ∧ calls cl' = calls cl
  ∧ ∀ ch, buffer ch cl' =
          if decide (Done <$> calls cl !! p = Some ch)
          then buffer ch cl ++ [p] else buffer ch cl.
Proof.
  unfold done. destruct (calls cl !! p) as [cv|] eqn:Hp; simpl.
  - destruct (has_room (Done cv) cl); [|done]. intros [= <-]. simpl.
    split_and!; try done. intros ch. unfold buffer at 1; simpl.
    case_decide as Hch.
    + injection Hch as <-. by rewrite lookup_insert_eq.
    + rewrite lookup_insert_ne; [done|]. congruence.
  - intros [= <-]. split_and!; done.
Qed.

Lemma complete_frame err p cl cl' :
  complete err p cl = Some cl' →
  pending cl' = pending cl ∧ seq cl' = seq cl
  ∧ closing cl' = closing cl ∧ shutdown cl' = shutdown cl.
Proof.
  unfold complete. intros (Hp & Hs & Hc & Hsh & _)%done_Some.
  by destruct (assign_frame err p cl) as (<- & <- & <- & <- & _).
Qed.

Lemma complete_completes err p cl cl' :
  is_Some (calls cl !! p) → complete err p cl = Some cl' →
  completed err p cl'.
Proof.
  intros [cv Hcv] Hc. unfold complete in Hc.
  destruct (done_Some _ _ _ Hc) as (_ & _ & _ & _ & Hcalls & Hbuf).
  assert (calls (assign err p cl) !! p = Some (set_Error (Some err) cv)) as Hp.
  { unfold assign; simpl. by rewrite lookup_alter_eq, Hcv. }
  exists (set_Error (Some err) cv). rewrite Hcalls.
  split_and!; [done|done|]. rewrite Hbuf, Hp. simpl.
  rewrite decide_True by done. apply elem_of_app. right. by left.
Qed.

Lemma complete_preserves err p q cl cl' :
  completed err p cl → complete err q cl = Some cl' → completed err p cl'.
Proof.
  intros (cv & Hcv & Herr & Hin) Hc. unfold complete in Hc.
  destruct (done_Some _ _ _ Hc) as (_ & _ & _ & _ & Hcalls & Hbuf).
  destruct (assign_frame err q cl) as (_ & _ & _ & _ & Hch & _).
  assert (∃ cv', calls (assign err q cl) !! p = Some cv'
                 ∧ Error cv' = Some err ∧ Done cv' = Done cv)
    as (cv' & Hcv' & Herr' & Hd).
  { unfold assign; simpl. destruct (decide (q = p)) as [->|Hne].
    - rewrite lookup_alter_eq, Hcv. simpl. by eexists.
    - rewrite lookup_alter_ne by done. by exists cv. }
  exists cv'. rewrite Hcalls. split_and!; [done|done|].
  rewrite Hbuf, Hd.
  assert (p ∈ buffer (Done cv) (assign err q cl)) as Hin'.
  { unfold buffer in *. by rewrite Hch. }
  case_decide; [|done]. apply elem_of_app. by left.
Qed.

(** *** The loop of [terminateCalls] *)

Lemma terminate_loop_frame err (l : list (N * ptr)) cl :
  let cl' := (terminate_loop err l cl).1 in
  pending cl' = pending cl ∧ seq cl' = seq cl
  ∧ closing cl' = closing cl ∧ shutdown cl' = shutdown cl
  ∧ (∀ p, is_Some (calls cl !! p) → is_Some (calls cl' !! p))
  ∧ ((terminate_loop err l cl).2 = true →
       ∀ p, completed err p cl → completed err p cl').
Proof.
  revert cl. induction l as [|[k q] l IH]; intros cl; simpl; [done|].
  destruct (assign_frame err q cl) as (Hp & Hs & Hc & Hsh & _ & _ & Hlive).
  destruct (done q (assign err q cl)) as [cl1|] eqn:Hdone; simpl.
  - destruct (done_Some _ _ _ Hdone) as (Hp1 & Hs1 & Hc1 & Hsh1 & Hcalls & _).
    destruct (IH cl1) as (Hp2 & Hs2 & Hc2 & Hsh2 & Hlive2 & Hdone2).
    split_and!; try congruence.
    + intros p Hp0. apply Hlive2. rewrite Hcalls. by apply Hlive.
    + intros Hret p Hp0. apply Hdone2; [done|].
      by apply (complete_preserves err p q cl).
  - split_and!; try done.
Qed.

Lemma terminate_loop_completes err (l : list (N * ptr)) cl k p :
  (terminate_loop err l cl).2 = true →
  (k, p) ∈ l → is_Some (calls cl !! p) →
  completed err p (terminate_loop err l cl).1.
Proof.
  revert cl. induction l as [|[k' q] l IH]; intros cl Hret Hin Hlive; simpl.
  { by inversion Hin. }
  simpl in Hret.
  destruct (done q (assign err q cl)) as [cl1|] eqn:Hdone; [|done].
  apply elem_of_cons in Hin as [[= <- <-]|Hin].
  - apply terminate_loop_frame; [done|].
    by apply (complete_completes err p cl).
  - apply IH; [done|done|].
    destruct (done_Some _ _ _ Hdone) as (_ & _ & _ & _ & -> & _).
    by apply assign_frame.
Qed.

Lemma sends_on_ext ch (l : list (N * ptr)) cl cl' :
  (∀ q, Done <$> calls cl' !! q = Done <$> calls cl !! q) →
  sends_on ch l cl' = sends_on ch l cl.
Proof.
  intros Hq. unfold sends_on. induction l as [|kv l IH]; [done|].
  rewrite !filter_cons, Hq.
  case_decide; simpl; by rewrite IH.
Qed.

Lemma terminate_loop_returns err (l : list (N * ptr)) cl :
  (∀ ch, sends_on ch l cl ≠ 0%nat →
         (length (buffer ch cl) + sends_on ch l cl ≤ ch.2)%nat) →
  (terminate_loop err l cl).2 = true.
Proof.
  revert cl. induction l as [|[k q] l IH]; intros cl Hroom; simpl; [done|].
  destruct (assign_frame err q cl) as (_ & _ & _ & _ & Hchans & Hdone_of & _).
  assert (∀ ch, buffer ch (assign err q cl) = buffer ch cl) as Hbuf0.
  { intros ch. unfold buffer. by rewrite Hchans. }
  assert (∀ ch, sends_on ch ((k, q) :: l) cl =
                ((if decide (Done <$> calls cl !! q = Some ch) then 1 else 0)
                 + sends_on ch l cl)%nat) as Hcons.
  { intros ch. unfold sends_on. rewrite filter_cons. simpl.
    by case_decide. }
  destruct (done q (assign err q cl)) as [cl1|] eqn:Hdone.
  - apply IH. intros ch Hne.
    destruct (done_Some _ _ _ Hdone) as (_ & _ & _ & _ & Hcalls & Hbuf).
    assert (sends_on ch l cl1 = sends_on ch l cl) as Hs.
    { apply sends_on_ext. intros p. by rewrite Hcalls. }
    rewrite Hs in *. rewrite Hbuf, Hdone_of, Hbuf0.
    specialize (Hroom ch). rewrite Hcons in Hroom.
    case_decide; [rewrite length_app; simpl|]; lia.
  - exfalso. unfold done in Hdone.
    destruct (calls (assign err q cl) !! q) as [cv|] eqn:Hq; [|done].
    destruct (has_room (Done cv) (assign err q cl)) eqn:Hr; [done|].
    unfold has_room in Hr. apply Nat.ltb_ge in Hr.
    rewrite Hbuf0 in Hr.
    specialize (Hroom (Done cv)). rewrite Hcons in Hroom.
    rewrite <- Hdone_of, Hq in Hroom. simpl in Hroom.
    rewrite decide_True in Hroom by done. lia.
Qed.

(** [terminateCalls], when it returns, has set [shutdown], has completed
    every pending call that is live with the error, and has left the
    pending table, the counter and [closing] alone. *)
Lemma terminateCalls_effect err cl cl' :
  terminateCalls err cl = Some cl' →
  pending cl' = pending cl ∧ seq cl' = seq cl
  ∧ closing cl' = closing cl ∧ shutdown cl' = true
  ∧ ∀ s p, pending cl !! s = Some p → is_Some (calls cl !! p) →
           completed err p cl'.
Proof.
  unfold terminateCalls.
  destruct (terminate_loop_frame err (map_to_list (pending (set_shutdown true cl)))
              (set_shutdown true cl)) as (Hp & Hs & Hc & Hsh & _).
  pose proof (terminate_loop_completes err
                (map_to_list (pending (set_shutdown true cl)))
                (set_shutdown true cl)) as Hdone.
  destruct (terminate_loop _ _ _) as [cl1 [|]]; [|done].
  intros [= <-]. simpl in *. split_and!; try done.
  intros s p Hsp Hlive. apply (Hdone s p); [done| |done].
  by apply elem_of_map_to_list.
Qed.

(** It does return when every channel has room for the sends it gets. *)
Lemma terminateCalls_returns err cl :
  room cl → is_Some (terminateCalls err cl).
Proof.
  intros Hroom. unfold terminateCalls.
  pose proof (terminate_loop_returns err
                (map_to_list (pending (set_shutdown true cl)))
                (set_shutdown true cl)) as Hret.
  destruct (terminate_loop _ _ _) as [cl1 ret]. simpl in *.
  rewrite Hret; [by eexists|]. exact Hroom.
Qed.

End pending_facts.

Section run_facts.
Import Client.
Context {V C : Type} {cdc : codec.Codec V C} {ef : Errorf}.
Implicit Types (cl : Client_ V C) (call p q : ptr) (err : error) (s k : N)
  (evs : list event).

(** *** The three callers of [removeCall] *)

Lemma removeCall_effect s cl :
  (removeCall s cl).2 = pending cl !! s
  ∧ pending (removeCall s cl).1 = delete s (pending cl)
  ∧ seq (removeCall s cl).1 = seq cl
  ∧ (removeCall s (removeCall s cl).1).2 = None.
Proof. unfold removeCall; simpl. split_and!; try done. apply lookup_delete_eq. Qed.

Lemma receive_iter_removes cl cc h res :
  codec.ReadHeader (c cl) = (cc, inl h) →
  receive_iter cl = Some res →
  pending res.1 = delete (codec.Seq h) (pending cl).
Proof.
  intros Hh. unfold receive_iter. rewrite Hh. simpl.
  destruct (pending cl !! codec.Seq h) as [p|].
  - case_bool_decide; simpl.
    + destruct (codec.ReadBody true cc) as [cc' [e|]]; simpl;
        intros Hres; apply bind_Some in Hres as (cl' & Hd & [= <-]);
        destruct (done_Some _ _ _ Hd) as (Hp & _); simpl; by rewrite Hp.
    + destruct (codec.ReadBody false cc) as [cc' e]; simpl.
      intros Hres; apply bind_Some in Hres as (cl' & Hd & [= <-]).
      destruct (done_Some _ _ _ Hd) as (Hp & _); simpl; by rewrite Hp.
  - destruct (codec.ReadBody false cc) as [cc' e]. by intros [= <-].
Qed.

Lemma send_failure_removes cl call cv cc e cl' :
  closing cl = false → shutdown cl = false →
  calls cl !! call = Some cv →
  codec.Write (codec.mkHeader (ServiceMethod cv) (seq cl) "") (Args cv) (c cl)
    = (cc, Some e) →
  send call cl = Some cl' →
  pending cl' = delete (seq cl) (pending cl) ∧ completed e call cl'.
Proof.
  intros Hc Hs Hcv Hw. unfold send, registerCall. rewrite Hc, Hs. simpl.
  rewrite lookup_alter_eq, Hcv. simpl. rewrite Hw. simpl.
  rewrite lookup_insert_eq. intros Hsend.
  destruct (complete_frame _ _ _ _ Hsend) as (Hp & _).
  split.
  - rewrite Hp. simpl. by rewrite delete_insert_eq.
  - eapply complete_completes; [|done]. simpl.
    rewrite lookup_alter_eq, Hcv. by eexists.
Qed.

Lemma cancel_removes cl call cv :
  calls cl !! call = Some cv →
  pending (cancel call cl) = delete (Seq cv) (pending cl).
Proof. intros Hcv. unfold cancel. by rewrite Hcv. Qed.

(** *** Runs *)

Lemma registered_app evs evs' :
  registered (evs ++ evs') = registered evs ++ registered evs'.
Proof. apply omap_app. Qed.

Lemma removed_app evs evs' :
  removed (evs ++ evs') = removed evs ++ removed evs'.
Proof. apply omap_app. Qed.

Lemma elem_of_removed s evs : s ∈ removed evs ↔ ∃ p, EvRemoved s p ∈ evs.
Proof.
  unfold removed. rewrite list_elem_of_omap. split.
  - intros ([s' p|s' p] & Hin & [= <-]). eauto.
  - intros (p & Hin). by exists (EvRemoved s p).
Qed.

Lemma elem_of_registered s p evs :
  EvRegistered s p ∈ evs → s ∈ registered evs.
Proof.
  intros Hin. unfold registered. apply list_elem_of_omap.
  by exists (EvRegistered s p).
Qed.

Lemma run_inv_init (cc : C) o : run_inv (V := V) (newClientCodec cc o) [].
Proof.
  unfold run_inv; simpl. split_and!; try done.
  - intros k p H. by inversion H.
  - intros _. split_and!; try done; [constructor|].
    intros k p H. by inversion H.
Qed.

Lemma run_inv_frame cl cl' evs :
  seq cl' = seq cl → pending cl' = pending cl →
  run_inv cl evs → run_inv cl' (evs ++ []).
Proof. unfold run_inv. rewrite app_nil_r. by intros -> ->. Qed.

Lemma run_inv_register cl evs call :
  closing cl || shutdown cl = false →
  run_inv cl evs →
  run_inv (registerCall call cl).1 (evs ++ [EvRegistered (seq cl) call]).
Proof.
  intros Hup (Hseq & Hpend & Hrem & Hbound).
  unfold registerCall. rewrite Hup. unfold run_inv; simpl.
  rewrite registered_app, removed_app, length_app; simpl.
  rewrite app_nil_r.
  set (n := length (registered evs)) in *.
  split_and!.
  - unfold uint64_incr. rewrite Hseq.
    rewrite N.Div0.add_mod_idemp_l. f_equal. lia.
  - intros k p. destruct (decide (seq cl = k)) as [<-|Hne].
    + rewrite lookup_insert_eq. intros [= <-]. apply elem_of_app. right. by left.
    + rewrite lookup_insert_ne by done. intros H%Hpend.
      apply elem_of_app. by left.
  - intros k p [H|H]%elem_of_app.
    + apply elem_of_app. left. by apply Hrem.
    + apply list_elem_of_singleton in H. discriminate.
  - intros Hn.
    destruct Hbound as (Hreg & Hkeys & Hgone & Hnodup & Hleft); [lia|].
    assert (seq cl = N.of_nat (n + 1)) as Hs.
    { rewrite Hseq. rewrite N.mod_small by lia. lia. }
    assert (∀ k, k ∈ registered evs → k ≠ seq cl) as Hfresh.
    { intros k Hin. rewrite Hreg in Hin.
      apply list_elem_of_fmap in Hin as (i & -> & Hin).
      apply list_elem_of_In, in_seq in Hin. lia. }
    split_and!.
    + rewrite Hreg, Hs.
      replace (n + 1)%nat with (S n) by lia. by rewrite seq_S, fmap_app.
    + intros k p. destruct (decide (seq cl = k)) as [<-|Hne].
      * intros _. lia.
      * rewrite lookup_insert_ne by done. intros H%Hkeys. lia.
    + intros k Hk.
      assert (pending cl !! k = None) as Hnone by by apply Hgone.
      rewrite lookup_insert_ne; [done|].
      intros <-. apply elem_of_removed in Hk as (p & Hp%Hrem).
      apply (Hfresh (seq cl)); [|done]. by apply (elem_of_registered _ p).
    + done.
    + intros k p [Hin|Hin]%elem_of_app.
      * assert (k ≠ seq cl) as Hne.
        { apply Hfresh. by apply (elem_of_registered _ p). }
        rewrite lookup_insert_ne by done.
        destruct (Hleft k p Hin) as [?|?]; [by left|].
        right. apply elem_of_app. by left.
      * apply list_elem_of_singleton in Hin. injection Hin as -> ->.
        left. apply lookup_insert_eq.
Qed.

Lemma run_inv_remove cl evs s p :
  pending cl !! s = Some p →
  run_inv cl evs →
  run_inv (removeCall s cl).1 (evs ++ [EvRemoved s p]).
Proof.
  intros Hsp (Hseq & Hpend & Hrem & Hbound).
  unfold removeCall, run_inv; simpl.
  rewrite registered_app, removed_app; simpl. rewrite app_nil_r.
  split_and!; try done.
  - intros k q Hk. apply elem_of_app. left. apply Hpend.
    apply lookup_delete_Some in Hk. tauto.
  - intros k q [H|H]%elem_of_app.
    + apply elem_of_app. left. by apply Hrem.
    + apply list_elem_of_singleton in H. injection H as -> ->.
      apply elem_of_app. left. by apply Hpend.
  - intros Hn. destruct (Hbound Hn) as (Hreg & Hkeys & Hgone & Hnodup & Hleft).
    split_and!; try done.
    + intros k q Hk. apply (Hkeys k q).
      apply lookup_delete_Some in Hk. tauto.
    + intros k [Hk|Hk]%elem_of_app.
      * apply lookup_delete_None. right. by apply Hgone.
      * apply list_elem_of_singleton in Hk as ->. apply lookup_delete_eq.
    + apply list.NoDup_app. split_and!; [done| |apply NoDup_singleton].
      intros k Hk ->%list_elem_of_singleton.
      apply Hgone in Hk. congruence.
    + intros k q [Hin|Hin]%elem_of_app.
      * destruct (Hleft k q Hin) as [Hk|Hk].
        -- destruct (decide (s = k)) as [->|Hne].
           ++ right. apply elem_of_app. right.
              rewrite Hsp in Hk. injection Hk as ->. by left.
           ++ left. by rewrite lookup_delete_ne.
        -- right. apply elem_of_app. by left.
      * apply list_elem_of_singleton in Hin. discriminate.
Qed.

Lemma run_inv_exec o cl evs :
  run_inv cl evs →
  run_inv (exec_op o cl).1 (evs ++ (exec_op o cl).2).
Proof.
  intros Hinv.
  destruct o as [cv|call|s|err| |err call|call|ch]; simpl.
  - by apply (run_inv_frame cl).
  - destruct (closing cl || shutdown cl) eqn:Hup.
    + unfold registerCall. rewrite Hup. simpl. by apply (run_inv_frame cl).
    + pose proof (run_inv_register cl evs call Hup Hinv) as H.
      unfold registerCall in *. by rewrite Hup in *.
  - pose proof (run_inv_remove cl evs s) as H.
    unfold removeCall in *; simpl in *.
    destruct (pending cl !! s) as [p|] eqn:Hsp; [by apply H|].
    apply (run_inv_frame cl); [done| |done]. simpl.
    by apply delete_id.
  - destruct (terminate_loop_frame err (map_to_list (pending cl))
                (set_shutdown true cl)) as (Hp & Hs & _).
    destruct (terminate_loop _ _ _) as [cl1 ret]. simpl in *.
    by apply (run_inv_frame cl).
  - apply (run_inv_frame cl); [| |done]; unfold Close;
      destruct (closing cl); try done;
      by destruct (codec.Close (c (set_closing true cl))).
  - destruct (complete err call cl) as [cl1|] eqn:Hc; simpl.
    + destruct (complete_frame _ _ _ _ Hc) as (Hp & Hs & _).
      by apply (run_inv_frame cl).
    + by apply (run_inv_frame cl).
  - destruct (done call cl) as [cl1|] eqn:Hd; simpl.
    + destruct (done_Some _ _ _ Hd) as (Hp & Hs & _).
      by apply (run_inv_frame cl).
    + by apply (run_inv_frame cl).
  - apply (run_inv_frame cl); [| |done];
      unfold recv; by destruct (buffer ch cl).
Qed.

Lemma run_inv_run ops cl evs :
  run_inv cl evs →
  run_inv (run_ops ops (cl, evs)).1 (run_ops ops (cl, evs)).2.
Proof.
  revert cl evs. induction ops as [|o ops IH]; intros cl evs Hinv; [done|].
  simpl. pose proof (run_inv_exec o cl evs Hinv) as Hstep.
  destruct (exec_op o cl) as [cl' evs']. by apply IH.
Qed.

End run_facts.

Section client_claims.
Import Client.
Context {V C : Type} {cdc : codec.Codec V C}.
Implicit Types (cl : Client_ V C) (call p q : ptr) (err : error) (s k : N).

(** C2 (as the code has it).  In every run of a fresh client, whatever
    leaves the pending table through [removeCall] (which is how the
    receive loop, the send-error path and cancellation take a call out)
    had been put there by [registerCall]; while fewer than 2^64 calls
    have been registered, no sequence number leaves the table twice, a
    number that has left is not in the table, and every call that has
    been registered is either still in the table under its number or has
    been taken out by [removeCall]: nothing leaves the table in any other
    way.  [removeCall] returns the entry of the number, if any, and
    deletes it.  [terminateCalls], whenever it returns, has set
    [shutdown] and has completed every pending call with the error, but
    it has taken nothing out: the table is the same afterwards, so every
    call it has completed is still pending.  It returns when every [Done]
    channel has room for the calls that are sent on it. *)
Theorem pending_removal (cc : C) (o : Server.Option_) :
  (∀ ops : list (op V), let st := run_ops ops (newClientCodec cc o, []) in
     (∀ s p, EvRemoved s p ∈ st.2 → EvRegistered s p ∈ st.2)
     ∧ ((N.of_nat (length (registered st.2)) < 2 ^ 64)%N →
          NoDup (removed st.2)
          ∧ (∀ s, s ∈ removed st.2 → pending st.1 !! s = None)
          ∧ (∀ s p, EvRegistered s p ∈ st.2 →
               pending st.1 !! s = Some p ∨ EvRemoved s p ∈ st.2)))
  ∧ (∀ cl s, (removeCall s cl).2 = pending cl !! s
             ∧ pending (removeCall s cl).1 = delete s (pending cl))
  ∧ (∀ cl err cl', terminateCalls err cl = Some cl' →
       pending cl' = pending cl
       ∧ shutdown cl' = true
       ∧ ∀ s p, pending cl !! s = Some p → is_Some (calls cl !! p) →
                completed err p cl' ∧ pending cl' !! s = Some p)
  ∧ (∀ cl err, room cl → is_Some (terminateCalls err cl)).
Proof.
  split_and!.
  - intros ops st.
    destruct (run_inv_run ops _ _ (run_inv_init cc o))
      as (_ & _ & Hrem & Hbound).
    split; [exact Hrem|]. intros Hn.
    destruct (Hbound Hn) as (_ & _ & Hgone & Hnodup & Hleft). done.
  - intros cl s. by destruct (removeCall_effect s cl) as (? & ? & _).
  - intros cl err cl' Hterm.
    destruct (terminateCalls_effect err cl cl' Hterm)
      as (Hp & _ & _ & Hsh & Hdone).
    split_and!; [done|done|]. intros s p Hsp Hlive.
    split; [by eapply Hdone | by rewrite Hp].
  - intros cl err. apply terminateCalls_returns.
Qed.

(** C6 (as the code has it).  The counter of a fresh client is 1.  A
    registration on a client that is neither closing nor shut down returns
    the current counter, stores the call under it, writes it into the
    call, and moves the counter to its successor modulo 2^64, which is the
    next number as long as the counter is below 2^64 - 1.  Hence in every
    run of a fresh client with fewer than 2^64 registrations, the
    registration number [i] gets the sequence number [i]: the numbers
    handed out are 1, 2, ..., N in this order, and none is handed out
    twice. *)
Theorem seq_assignment (cc : C) (o : Server.Option_) :
  seq (newClientCodec (V := V) cc o) = 1%N
  ∧ (∀ cl call, closing cl = false → shutdown cl = false →
       (registerCall call cl).2 = (seq cl, None)
       ∧ seq (registerCall call cl).1 = ((seq cl + 1) mod 2 ^ 64)%N
       ∧ pending (registerCall call cl).1 = <[seq cl := call]> (pending cl)
       ∧ calls (registerCall call cl).1 = alter (set_Seq (seq cl)) call (calls cl)
       ∧ ((seq cl < 2 ^ 64 - 1)%N →
            seq (registerCall call cl).1 = (seq cl + 1)%N))
  ∧ (∀ ops : list (op V), let st := run_ops ops (newClientCodec cc o, []) in
       let n := length (registered st.2) in
       (N.of_nat n < 2 ^ 64)%N →
       registered st.2 = N.of_nat <$> List.seq 1 n
       ∧ (∀ i s, registered st.2 !! i = Some s → s = N.of_nat (S i))
       ∧ NoDup (registered st.2)).
Proof.
  split_and!; [done| |].
  - intros cl call Hc Hs. unfold registerCall. rewrite Hc, Hs. simpl.
    split_and!; try done.
    intros Hlt. unfold uint64_incr. apply N.mod_small. lia.
  - intros ops st n Hn.
    destruct (run_inv_run ops _ _ (run_inv_init cc o))
      as (_ & _ & _ & Hbound).
    destruct (Hbound Hn) as (Hreg & _).
    fold st in Hreg. fold n in Hreg.
    split_and!; [done| |].
    + intros i s. rewrite Hreg, list_lookup_fmap.
      intros Hi. apply fmap_Some in Hi as (j & Hj & ->).
      apply lookup_seq in Hj as [-> _]. done.
    + rewrite Hreg. apply NoDup_fmap_2; [apply _|]. apply NoDup_seq.
Qed.

(** The counter after [n] registrations in a row on a client that is up. *)
Lemma register_run_succ (f : N → ptr) (n : N) cl :
  register_run f (N.succ n) cl = (registerCall (f n) (register_run f n cl)).1.
Proof. unfold register_run. by rewrite N.peano_rect_succ. Qed.

Lemma register_run_seq (f : N → ptr) (n : N) cl :
  closing cl = false → shutdown cl = false → (seq cl < 2 ^ 64)%N →
  closing (register_run f n cl) = false
  ∧ shutdown (register_run f n cl) = false
  ∧ seq (register_run f n cl) = ((seq cl + n) mod 2 ^ 64)%N.
Proof.
  intros Hc Hs Hlt. induction n as [|n IH] using N.peano_ind.
  - unfold register_run. rewrite N.peano_rect_base.
    split_and!; [done|done|]. rewrite N.add_0_r. by rewrite N.mod_small.
  - destruct IH as (Hc' & Hs' & Hseq). rewrite register_run_succ.
    unfold registerCall. rewrite Hc', Hs'. simpl.
    split_and!; [done|done|].
    unfold uint64_incr. rewrite Hseq, N.Div0.add_mod_idemp_l.
    f_equal. lia.
Qed.

End client_claims.

Lemma fixture_busy_room : Client.room fixtures.busy_client.
Proof.
  intros [a n] Hne.
  destruct (decide ((a, n) = (1%positive, 1%nat))) as [[= -> ->]|Hch].
  - vm_compute. lia.
  - exfalso. apply Hne. unfold Client.sends_on.
    change (map_to_list (Client.pending fixtures.busy_client))
      with [(1%N, 1%positive)].
    rewrite filter_cons, decide_False; [done|].
    intros Heq. vm_compute in Heq. injection Heq as <- <-. by apply Hch.
Defined.

Lemma pending_removal_witness :
  let ops := [Client.OpNew fixtures.Sum_call; Client.OpRegister 1%positive;
              Client.OpRemove 1%N; Client.OpRemove 1%N;
              Client.OpNew fixtures.Sum_call; Client.OpRegister 2%positive;
              Client.OpTerminate (errorString "EOF")] in
  let st := Client.run_ops ops (fixtures.fresh_client, []) in
  Client.removed st.2 = [1%N]
  ∧ NoDup (Client.removed st.2)
  ∧ Client.pending st.1 !! 2%N = Some 2%positive
  ∧ ∃ cl', Client.terminateCalls (errorString "EOF") fixtures.busy_client
           = Some cl'
           ∧ Client.completed (errorString "EOF") 1%positive cl'
           ∧ Client.pending cl' !! 1%N = Some 1%positive.
Proof.
  intros ops st.
  destruct (pending_removal (V := string) tt Server.DefaultOption)
    as (Hruns & _ & Hterm & Hret).
  split; [reflexivity|]. split.
  - destruct (Hruns ops) as [_ Hbound].
    exact (proj1 (Hbound eq_refl)).
  - split; [reflexivity|].
    destruct (Hret fixtures.busy_client (errorString "EOF") fixture_busy_room)
      as [cl' Hcl'].
    exists cl'. split; [exact Hcl'|].
    destruct (Hterm _ _ _ Hcl') as (_ & _ & Hdone).
    exact (Hdone 1%N 1%positive eq_refl (ex_intro _ _ eq_refl)).
Defined.

(** C2 (as stated).  After [terminateCalls] has returned on the client
    that has the call of the first scenario in flight, that call is
    completed with the error and is still in the pending table under its
    number. *)
Lemma terminateCalls_keeps_completed_calls :
  ¬ (∀ (cl cl' : Client.Client_ string unit) err s p,
       Client.terminateCalls err cl = Some cl' →
       Client.pending cl' !! s = Some p →
       ¬ Client.completed err p cl').
Proof.
  intros H.
  destruct (terminateCalls_returns (errorString "EOF") fixtures.busy_client
              fixture_busy_room) as [cl' Hcl'].
  destruct (terminateCalls_effect _ _ _ Hcl') as (Hp & _ & _ & _ & Hdone).
  apply (H fixtures.busy_client cl' (errorString "EOF") 1%N 1%positive Hcl').
  - by rewrite Hp.
  - apply (Hdone 1%N 1%positive); [reflexivity | by eexists].
Qed.

(** Where the channel has no room for all the calls, [terminateCalls]
    does not return: with two pending calls on one channel of capacity 1
    the second send waits. *)
Lemma terminateCalls_waits_on_a_full_channel :
  Client.terminateCalls (errorString "EOF") fixtures.shared_client = None
  ∧ ¬ Client.room fixtures.shared_client.
Proof.
  split; [reflexivity|]. intros Hroom.
  specialize (Hroom (1%positive, 1%nat)). vm_compute in Hroom.
  assert (2 ≤ 1)%nat as Hle; [|lia].
  apply Hroom. discriminate.
Qed.

Lemma seq_assignment_witness :
  let ops := [Client.OpNew fixtures.Sum_call; Client.OpRegister 1%positive;
              Client.OpRemove 1%N;
              Client.OpNew fixtures.Sum_call; Client.OpRegister 2%positive;
              Client.OpNew fixtures.Sum_call; Client.OpRegister 3%positive] in
  Client.registered (Client.run_ops ops (fixtures.fresh_client, [])).2
    = [1%N; 2%N; 3%N]
  ∧ (Client.registerCall 1%positive
       (Client.new_call fixtures.Sum_call fixtures.fresh_client).1).2
    = (1%N, None).
Proof.
  intros ops.
  destruct (seq_assignment (V := string) tt Server.DefaultOption)
    as (_ & Hreg & Hruns).
  split.
  - exact (proj1 (Hruns ops eq_refl)).
  - exact (proj1 (Hreg (Client.new_call fixtures.Sum_call fixtures.fresh_client).1
                    1%positive eq_refl eq_refl)).
Defined.

(** C6 (as stated).  The counter is a [uint64].  The first registration
    on a fresh client is given the number 1; the registration number 2^64
    is given 0, the number reserved as invalid, and the one after it is
    given 1 again. *)
Lemma registerCall_wraps_around :
  let f := N.succ_pos in
  let after n := Client.register_run f n fixtures.fresh_client in
  (Client.registerCall (f 0%N) (after 0%N)).2 = (1%N, None)
  ∧ (Client.registerCall (f (2 ^ 64 - 1)%N) (after (2 ^ 64 - 1)%N)).2
    = (0%N, None)
  ∧ (Client.registerCall (f (2 ^ 64)%N) (after (2 ^ 64)%N)).2 = (1%N, None).
Proof.
  intros f after.
  assert (∀ n, (Client.registerCall (f n) (after n)).2
               = (((1 + n) mod 2 ^ 64)%N, None)) as Hn.
  { intros n.
    destruct (register_run_seq f n fixtures.fresh_client)
      as (Hc & Hs & Hseq); [done|done|done|].
    unfold Client.registerCall. fold (after n) in Hc, Hs, Hseq.
    by rewrite Hc, Hs, Hseq. }
  split_and!; rewrite Hn; reflexivity.
Qed.

(** ** xclient: MultiServersDiscovery *)

Section discovery_facts.
Import xclient.
Context {R : Type} {rnd : Rand R}.
Implicit Types (h : heap) (d : MultiServersDiscovery R) (sl : slice).

Lemma elems_length h sl : valid h sl → length (elems h sl) = len sl.
Proof.
  unfold elems. intros [Hnil|(a & Ha & Hle)].
  - rewrite Hnil. by rewrite take_0.
  - rewrite Ha. simpl. rewrite length_take, length_drop. lia.
Qed.

Lemma elems_ext h h' sl :
  len sl = 0%nat ∨ h' !! arr sl = h !! arr sl → elems h' sl = elems h sl.
Proof.
  unfold elems. intros [Hnil|Heq].
  - by rewrite Hnil, !take_0.
  - by rewrite Heq.
Qed.

Lemma slice_get_ext h h' sl i :
  elems h' sl = elems h sl → slice_get h' sl i = slice_get h sl i.
Proof. unfold slice_get. by intros ->. Qed.

Lemma Get_ext mode h h' d :
  elems h' (servers d) = elems h (servers d) → Get mode h' d = Get mode h d.
Proof.
  intros Heq. unfold Get.
  destruct (Z.of_nat (len (servers d)) =? 0)%Z; [done|].
  destruct (mode =? RandomSelect)%Z.
  - destruct (Intn _ _) as [k r1]. by rewrite (slice_get_ext _ _ _ _ Heq).
  - destruct (mode =? RoundRobinSelect)%Z; [|done].
    by rewrite (slice_get_ext _ _ _ _ Heq).
Qed.

Lemma int_add_small a b :
  (- 2 ^ 63 ≤ a + b < 2 ^ 63)%Z → int_add a b = (a + b)%Z.
Proof.
  intros Hr. unfold int_add, int_wrap. rewrite Z.mod_small by lia. lia.
Qed.

(** The index stays in the range in which [index + 1] does not overflow:
    [NewMultiServerDiscovery] draws it below 2^31, and a round-robin [Get]
    leaves it below the number of servers. *)
Lemma index_range_New (r0 : R) sl :
  (0 ≤ index (NewMultiServerDiscovery r0 sl) < MaxInt)%Z.
Proof.
  unfold NewMultiServerDiscovery.
  pose proof (Intn_range (MaxInt32 - 1) r0) as Hr.
  destruct (Intn (MaxInt32 - 1) r0) as [i r1]. simpl in *.
  unfold MaxInt32, MaxInt in *. lia.
Qed.

Lemma index_range_Get mode h d d' res :
  (Z.of_nat (len (servers d)) ≤ MaxInt)%Z →
  (0 ≤ index d < MaxInt)%Z →
  Get mode h d = Some (d', res) →
  (0 ≤ index d' < MaxInt)%Z ∧ servers d' = servers d.
Proof.
  intros Hlen Hidx. unfold Get.
  destruct (Z.eqb_spec (Z.of_nat (len (servers d))) 0) as [|Hn].
  { by intros [= <- _]. }
  destruct (mode =? RandomSelect)%Z.
  { destruct (Intn _ _) as [k r1].
    destruct (slice_get h (servers d) k); simpl; [|done]. by intros [= <- _]. }
  destruct (mode =? RoundRobinSelect)%Z; [|by intros [= <- _]].
  destruct (slice_get h (servers d) _); simpl; [|done].
  intros [= <- _]. simpl. split; [|done].
  unfold MaxInt in *. rewrite int_add_small by lia.
  unfold int_rem. rewrite Z.rem_mod_nonneg by lia.
  pose proof (Z.mod_pos_bound (index d + 1) (Z.of_nat (len (servers d)))).
  lia.
Qed.

(** C9.  On an empty server list [Get] fails, whatever the mode.  On a
    list of [n ≥ 1] servers: round robin returns the server at position
    [index mod n] and sets the index to [(index + 1) mod n], the rest of
    the discovery unchanged; random selection returns a server of the list
    and changes nothing but the generator; any other mode fails and
    changes nothing. *)
Theorem Get_spec h d :
  let n := Z.of_nat (len (servers d)) in
  (n = 0%Z →
     ∀ mode, Get mode h d
             = Some (d, ("", Some (errorString "rpc discovery: no available servers"))))
  ∧ ((1 ≤ n)%Z → valid h (servers d) → (0 ≤ index d < MaxInt)%Z →
       (∃ s, Get RoundRobinSelect h d
             = Some (mkDiscovery (r d) (servers d) ((index d + 1) mod n)%Z,
                     (s, None))
             ∧ elems h (servers d) !! Z.to_nat (index d mod n) = Some s)
       ∧ (∃ s r1, Get RandomSelect h d
                  = Some (mkDiscovery r1 (servers d) (index d), (s, None))
                  ∧ s ∈ elems h (servers d))
       ∧ (∀ mode, mode ≠ RandomSelect → mode ≠ RoundRobinSelect →
            Get mode h d
            = Some (d, ("", Some (errorString
                                    "rpc discovery: not supported select mode"))))).
Proof.
  intros n. split.
  - intros Hn mode. unfold Get. fold n. by rewrite Hn.
  - intros Hn Hvalid Hidx.
    pose proof (elems_length _ _ Hvalid) as Hlen.
    assert (∀ k, (0 ≤ k < n)%Z →
              ∃ s, slice_get h (servers d) k = Some s
                   ∧ elems h (servers d) !! Z.to_nat k = Some s) as Hget.
    { intros k Hk. unfold slice_get. fold n.
      destruct (Z.leb_spec 0 k); [|lia]. destruct (Z.ltb_spec k n); [|lia].
      simpl. destruct (lookup_lt_is_Some_2 (elems h (servers d)) (Z.to_nat k))
        as [s Hs]; [lia|]. eauto. }
    unfold Get. fold n. destruct (Z.eqb_spec n 0) as [|_]; [lia|].
    split_and!.
    + simpl. unfold int_rem. unfold MaxInt in Hidx.
      rewrite int_add_small by lia. rewrite !Z.rem_mod_nonneg by lia.
      destruct (Hget (index d mod n)%Z) as (s & Hs & Hel).
      { apply Z.mod_pos_bound. lia. }
      exists s. by rewrite Hs.
    + simpl. pose proof (Intn_range n (r d)) as Hr.
      destruct (Intn n (r d)) as [k r1]. simpl in Hr.
      destruct (Hget k) as (s & Hs & Hel); [lia|].
      exists s, r1. rewrite Hs. split; [done|].
      by eapply list_elem_of_lookup_2.
    + intros mode Hm1 Hm2.
      destruct (Z.eqb_spec mode RandomSelect); [done|].
      by destruct (Z.eqb_spec mode RoundRobinSelect).
Qed.

Lemma make_fresh n h :
  (make n h).1 !! arr (make n h).2 = Some (replicate n "")
  ∧ h !! arr (make n h).2 = None
  ∧ off (make n h).2 = 0%nat ∧ len (make n h).2 = n
  ∧ ∀ l, l ≠ arr (make n h).2 → (make n h).1 !! l = h !! l.
Proof.
  unfold make; simpl. split_and!; try done.
  - apply lookup_insert_eq.
  - apply not_elem_of_dom, is_fresh.
  - intros l Hl. by apply lookup_insert_ne.
Qed.

Lemma valid_fresh h sl l :
  valid h sl → h !! l = None → len sl = 0%nat ∨ arr sl ≠ l.
Proof.
  intros [Hnil|(a & Ha & _)] Hl; [by left|]. right. intros Heq.
  rewrite Heq in Ha. congruence.
Qed.

(** The copy that [GetAll] returns holds the servers of the discovery,
    in a backing array that did not exist before. *)
Lemma GetAll_copy h d :
  valid h (servers d) →
  let res := GetAll h d in
  res.1.2 = d ∧ res.2.2 = None
  ∧ h !! arr res.2.1 = None
  ∧ elems res.1.1 res.2.1 = elems h (servers d)
  ∧ (∀ l, l ≠ arr res.2.1 → res.1.1 !! l = h !! l)
  ∧ valid res.1.1 res.2.1.
Proof.
  intros Hvalid. unfold GetAll.
  destruct (make_fresh (len (servers d)) h) as (Hnew & Hfresh & Hoff & Hlen & Hold).
  destruct (make (len (servers d)) h) as [h1 sl] eqn:Hmk. simpl in *.
  pose proof (valid_fresh _ _ _ Hvalid Hfresh) as Hne.
  assert (elems h1 (servers d) = elems h (servers d)) as Hsame.
  { apply elems_ext. destruct Hne as [?|Hne]; [by left|]. right. by apply Hold. }
  pose proof (elems_length _ _ Hvalid) as Hl.
  assert (take (len sl `min` len (servers d)) (elems h1 (servers d))
          = elems h (servers d)) as Hvals.
  { rewrite Hsame, Hlen, Nat.min_id. apply take_ge. lia. }
  split_and!; try done.
  - unfold copy. rewrite Hvals. unfold elems at 1.
    rewrite lookup_alter_eq, Hnew. simpl.
    rewrite Hoff, Hlen, Hl. simpl. rewrite drop_replicate, Nat.sub_diag.
    simpl. rewrite app_nil_r. apply take_ge. lia.
  - intros l Hl'. unfold copy. rewrite lookup_alter_ne by done. by apply Hold.
  - right. unfold copy. rewrite lookup_alter_eq, Hnew. simpl.
    eexists. split; [done|]. rewrite Hvals, Hoff, Hlen. simpl.
    rewrite length_app, Hl. lia.
Qed.

(** C10.  [GetAll] returns, without an error, a slice over a backing array
    that was not allocated before and that holds the servers of the
    discovery; it leaves the discovery and every array that existed before
    as they were.  Whatever is then stored through the returned slice, the
    servers of the discovery are the same as before, every [Get] answers
    as before, and another [GetAll] returns the same servers. *)
Theorem GetAll_spec h d :
  valid h (servers d) →
  let res := GetAll h d in
  res.2.2 = None ∧ res.1.2 = d
  ∧ (arr res.2.1 ∉ dom h)
  ∧ len res.2.1 = len (servers d)
  ∧ elems res.1.1 res.2.1 = elems h (servers d)
  ∧ (∀ l, l ∈ dom h → res.1.1 !! l = h !! l)
  ∧ (∀ i v h', slice_set res.2.1 i v res.1.1 = Some h' →
       elems h' (servers d) = elems h (servers d)
       ∧ (∀ mode, Get mode h' d = Get mode h d)
       ∧ elems (GetAll h' d).1.1 (GetAll h' d).2.1 = elems h (servers d)).
Proof.
  intros Hvalid res.
  destruct (GetAll_copy h d Hvalid) as (Hd & Herr & Hfresh & Hel & Hold & Hv).
  fold res in Hd, Herr, Hfresh, Hel, Hold, Hv.
  pose proof (valid_fresh _ _ _ Hvalid Hfresh) as Hne.
  split_and!; try done.
  - by apply not_elem_of_dom.
  - intros l Hl. apply Hold. intros ->. by apply not_elem_of_dom in Hfresh.
  - intros i v h' Hset. unfold slice_set in Hset.
    destruct (i <? len res.2.1)%nat; [|done]. injection Hset as <-.
    assert (∀ l, l ≠ arr res.2.1 →
              alter (λ a, <[(off res.2.1 + i)%nat:=v]> a) (arr res.2.1) res.1.1 !! l
              = h !! l) as Hold'.
    { intros l Hl. rewrite lookup_alter_ne by done. by apply Hold. }
    assert (elems (alter (λ a, <[(off res.2.1 + i)%nat:=v]> a)
                     (arr res.2.1) res.1.1) (servers d)
            = elems h (servers d)) as Hsame.
    { apply elems_ext. destruct Hne as [?|Hne]; [by left|]. right.
      by apply Hold'. }
    split_and!; [done| |].
    + intros mode. by apply Get_ext.
    + rewrite <- Hsame. apply GetAll_copy.
      destruct Hvalid as [?|(a & Ha & Hle)]; [by left|]. right.
      exists a. split; [|done]. rewrite Hold'; [done|].
      intros Heq. rewrite Heq in Ha. congruence.
Qed.

End discovery_facts.

Lemma fixture_servers_valid :
  xclient.valid fixtures.servers_heap
    (xclient.servers fixtures.three_servers).
Proof. right. eexists. split; [reflexivity|]. simpl. lia. Defined.

Lemma Get_spec_witness :
  ∃ s, xclient.Get xclient.RoundRobinSelect fixtures.servers_heap
         fixtures.three_servers
       = Some (xclient.mkDiscovery 2024%Z fixtures.servers_slice 2%Z, (s, None))
       ∧ xclient.elems fixtures.servers_heap fixtures.servers_slice !! 1%nat
         = Some s.
Proof.
  destruct (Get_spec fixtures.servers_heap fixtures.three_servers)
    as [_ Hsome].
  destruct Hsome as (Hrr & _ & _).
  - simpl. lia.
  - exact fixture_servers_valid.
  - unfold xclient.MaxInt. simpl. lia.
  - exact Hrr.
Defined.

Lemma GetAll_spec_witness :
  let res := xclient.GetAll fixtures.servers_heap fixtures.three_servers in
  xclient.elems res.1.1 res.2.1
  = ["tcp@10.0.0.1:9001"; "tcp@10.0.0.2:9002"; "tcp@10.0.0.3:9003"]
  ∧ ∀ i v h',
      xclient.slice_set res.2.1 i v res.1.1 = Some h' →
      xclient.elems h' fixtures.servers_slice
      = ["tcp@10.0.0.1:9001"; "tcp@10.0.0.2:9002"; "tcp@10.0.0.3:9003"].
Proof.
  intros res.
  destruct (GetAll_spec fixtures.servers_heap fixtures.three_servers
              fixture_servers_valid)
    as (_ & _ & _ & _ & Hel & _ & Hmut).
  split.
  - exact Hel.
  - intros i v h' Hset. exact (proj1 (Hmut i v h' Hset)).
Defined.

(* ===================================================================== *)
(** * Further properties of the server *)
(* ===================================================================== *)

Section server_more.
Import strings reflect Service Server.
Context {ast : Ast}.

Lemma findService_dot server s m :
  contains "." m = false →
  findService server (s +:+ "." +:+ m) =
    match serviceMap server !! s with
    | None =>
        (None, None,
         Some (errorString ("rpc server: can't find service " +:+ s)))
    | Some svc =>
        match method_ svc !! m with
        | None =>
            (Some svc, None,
             Some (errorString ("rpc server: can't find method " +:+ m)))
        | Some mtype => (Some svc, Some mtype, None)
        end
    end.
Proof.
  intros Hm. unfold findService.
  change (s +:+ "." +:+ m) with (s +:+ String "." m).
  rewrite (LastIndexByte_app s "." m Hm).
  destruct (Z.ltb_spec (Z.of_nat (String.length s)) 0) as [|_]; [lia|].
  rewrite Nat2Z.id.
  replace (Z.to_nat (Z.of_nat (String.length s) + 1))
    with (String.length (s +:+ ".")).
  2:{ rewrite string_length_app. simpl. lia. }
  rewrite prefix_app.
  replace (s +:+ String "." m) with ((s +:+ ".") +:+ m).
  2:{ by rewrite string_app_assoc. }
  by rewrite suffix_app.
Qed.

(** Registration and lookup fit together: once a receiver with an exported
    type name is registered on a server that has no service of that name,
    a request for [Name.Method] resolves, for every eligible method of the
    method set whose name has no dot, to the stored service and to an
    eligible method of that name from the method set. *)
Theorem Register_then_findService server rcvr_typ ms m :
  IsExported (Name (Indirect_Type rcvr_typ)) = true →
  serviceMap server !! Name (Indirect_Type rcvr_typ) = None →
  m ∈ ms → eligible m → contains "." (MName m) = false →
  ∃ server' svc mt,
    Register server rcvr_typ ms = Some (server', None)
    ∧ findService server'
        (Name (Indirect_Type rcvr_typ) +:+ "." +:+ MName m)
      = (Some svc, Some mt, None)
    ∧ name svc = Name (Indirect_Type rcvr_typ)
    ∧ method_ svc = registerMethods ms
    ∧ method mt ∈ ms ∧ MName (method mt) = MName m ∧ eligible (method mt).
Proof.
  intros Hexp Hfree Hin Hel Hdot.
  set (nm := Name (Indirect_Type rcvr_typ)) in *.
  assert (is_Some (registerMethods ms !! MName m)) as [mt Hmt].
  { unfold registerMethods. apply registerMethods_loop_is_Some.
    right. by exists m. }
  pose proof Hmt as Hmt'. unfold registerMethods in Hmt'.
  apply registerMethods_loop_lookup in Hmt' as [Hmt'|(Hin' & Hnm & Hreg)].
  { by rewrite lookup_empty in Hmt'. }
  destruct (register_one_Some _ _ Hreg) as (Hel' & _).
  eexists _, (mkService nm rcvr_typ ms (registerMethods ms)), mt.
  split_and!; try done.
  - unfold Register, newService. fold nm. rewrite Hexp. simpl.
    fold nm. by rewrite Hfree.
  - rewrite findService_dot by done. simpl.
    rewrite lookup_insert_eq. simpl. by rewrite Hmt.
Qed.

(** A second registration under a name that is taken is refused with the
    duplicate error and changes nothing; a registration that succeeds
    leaves the services of all other names as they were. *)
Theorem Register_keeps_first server rcvr_typ ms :
  IsExported (Name (Indirect_Type rcvr_typ)) = true →
  (is_Some (serviceMap server !! Name (Indirect_Type rcvr_typ)) →
     Register server rcvr_typ ms
     = Some (server,
             Some (errorString ("rpc: service already defined: "
                                  +:+ Name (Indirect_Type rcvr_typ)))))
  ∧ (∀ server' err other,
       Register server rcvr_typ ms = Some (server', err) →
       other ≠ Name (Indirect_Type rcvr_typ) →
       serviceMap server' !! other = serviceMap server !! other).
Proof.
  intros Hexp. unfold Register, newService. rewrite Hexp. simpl.
  split.
  - by intros [svc ->].
  - intros server' err other.
    destruct (serviceMap server !! Name (Indirect_Type rcvr_typ)).
    + by intros [= <- _].
    + intros [= <- _] Hne. simpl. by rewrite lookup_insert_ne.
Qed.

End server_more.

Lemma Register_then_findService_witness :
  ∃ server' svc mt,
    Server.Register (ast := reflect.ascii_Ast) Server.NewServer
      (reflect.PtrTo fixtures.Foo) fixtures.Foo_methods
    = Some (server', None)
    ∧ Server.findService server' "Foo.Sum" = (Some svc, Some mt, None).
Proof.
  destruct (Register_then_findService (ast := reflect.ascii_Ast)
              Server.NewServer (reflect.PtrTo fixtures.Foo)
              fixtures.Foo_methods fixtures.Foo_Sum)
    as (server' & svc & mt & Hreg & Hfind & _).
  - reflexivity.
  - reflexivity.
  - unfold fixtures.Foo_methods. repeat constructor.
  - by eexists _, _, _.
  - reflexivity.
  - by exists server', svc, mt.
Defined.

Lemma Register_keeps_first_witness :
  Server.Register (ast := reflect.ascii_Ast) fixtures.Foo_server
    (reflect.PtrTo fixtures.Foo) fixtures.Foo_methods
  = Some (fixtures.Foo_server,
          Some (errorString "rpc: service already defined: Foo")).
Proof.
  destruct (Register_keeps_first (ast := reflect.ascii_Ast)
              fixtures.Foo_server (reflect.PtrTo fixtures.Foo)
              fixtures.Foo_methods eq_refl) as [Hdup _].
  apply Hdup. by eexists.
Defined.

(* ===================================================================== *)
(** * Further properties of the request handler *)
(* ===================================================================== *)

Section handler_more.
Import codec Handler.
Context {V : Type} {fmt : DurationFmt}.
Implicit Types (s : hstate V) (hd : Header) (timeout : Z) (result : option error).

(** Whatever the schedule, the timeout and the outcome of the method, a
    handler never writes a second frame for its request, and what it
    writes carries the sentinel body and the sequence number and method
    name of the request. *)
Theorem handleRequest_at_most_one_frame timeout result hd sched :
  let s := run timeout result sched (init (V := V) hd) in
  (length (wire s) ≤ 1)%nat
  ∧ ∀ f, f ∈ wire s →
         f.2 = invalidRequest ∧ Seq f.1 = Seq hd
         ∧ ServiceMethod f.1 = ServiceMethod hd.
Proof.
  pose proof (reachable_shape_run timeout result hd sched _
                (reachable_shape_init (V := V) timeout result hd)) as [_ Hst].
  simpl. destruct (run timeout result sched (init hd)) as [i m h w d l].
  simpl in *.
  destruct m, i; try done; destruct_and?;
    try (destruct Hst as (e & _ & _ & Hw & _)); subst w; simpl;
    (split; [lia|]); intros f Hf;
    try (by inversion Hf);
    apply list_elem_of_singleton in Hf as ->; done.
Qed.

Lemma log_grows timeout result a s x :
  x ∈ log s → x ∈ log (exec timeout result a s).
Proof.
  intros Hx. unfold exec.
  destruct (step timeout result a s) as [s'|] eqn:Hstep; simpl; [|done].
  destruct s as [i m h w d l]; simpl in *.
  destruct a, i, m; simpl in Hstep; try discriminate;
    try (destruct result); simplify_eq/=; apply elem_of_app; by left.
Qed.

Lemma log_grows_run timeout result sched s x :
  x ∈ log s → x ∈ log (run timeout result sched s).
Proof.
  revert s. induction sched as [|a sched IH]; intros s Hx; simpl; [done|].
  by apply IH, log_grows.
Qed.

(** Once the timer case has been taken, the invoking goroutine never gets
    past its send on [called]: nobody receives from that channel any
    more, so the goroutine stays parked there for good, whatever runs
    afterwards, and an error that the method returns late is never
    written. *)
Theorem handleRequest_timeout_parks_invocation timeout result hd sched sched' :
  let s := run timeout result sched (init (V := V) hd) in
  ActTimer ∈ log s →
  let s' := run timeout result sched' s in
  (ipc s' = ICall ∨ ipc s' = ISendCalled)
  ∧ (∀ f, f ∈ wire s' →
          f = (set_Error (timeout_message timeout) hd, invalidRequest)).
Proof.
  intros s Hin s'.
  destruct (shapes_run timeout result hd sched _
              (reachable_shape_init (V := V) timeout result hd)
              (history_shape_init (V := V) hd)) as [Hr Hh].
  fold s in Hr, Hh.
  destruct (shapes_run timeout result hd sched' s Hr Hh)
    as [[_ Hst] [Htimer _]].
  fold s' in Hst, Htimer.
  pose proof (log_grows_run timeout result sched' s _ Hin) as Hin'.
  fold s' in Hin'.
  destruct (Htimer Hin') as [Hm Hi]. split; [done|].
  destruct s' as [i m h w d l]; simpl in *.
  destruct Hm as [-> | ->], Hi as [-> | ->]; destruct_and?; subst w;
    intros f Hf; try (by inversion Hf);
    by apply list_elem_of_singleton in Hf as ->.
Qed.

End handler_more.

Lemma handleRequest_timeout_parks_invocation_witness :
  let fmt := {| Handler.Duration_String := λ _, "1s" |} in
  let hd := codec.mkHeader "Bar.Timeout" 1 "" in
  Handler.ipc
    (Handler.run (V := unit) Server.Second (Some (errorString "late"))
       [Handler.ActCall; Handler.ActCalled; Handler.ActBranch;
        Handler.ActInvSend; Handler.ActSent]
       (Handler.run (V := unit) Server.Second (Some (errorString "late"))
          [Handler.ActStart; Handler.ActTimer; Handler.ActMainSend]
          (Handler.init hd)))
  = Handler.ISendCalled.
Proof.
  intros fmt hd.
  destruct (handleRequest_timeout_parks_invocation (V := unit) Server.Second
              (Some (errorString "late")) hd
              [Handler.ActStart; Handler.ActTimer; Handler.ActMainSend]
              [Handler.ActCall; Handler.ActCalled; Handler.ActBranch;
               Handler.ActInvSend; Handler.ActSent])
    as [[Hi|Hi] _].
  - simpl. apply elem_of_cons. right. apply elem_of_cons. left. reflexivity.
  - discriminate Hi.
  - exact Hi.
Defined.

(* ===================================================================== *)
(** * Further properties of the client *)
(* ===================================================================== *)

Section client_more.
Import Client.
Context {V C : Type} {cdc : codec.Codec V C} {ef : Errorf}.
Implicit Types (cl : Client_ V C) (call p q : ptr) (err : error) (s k : N)
  (evs : list event).

Lemma done_connection p cl cl' :
  done p cl = Some cl' → c cl' = c cl ∧ header cl' = header cl.
Proof.
  unfold done. destruct (calls cl !! p) as [cv|]; [|by intros [= <-]].
  destruct (has_room (Done cv) cl); [|done]. by intros [= <-].
Qed.

Lemma exec_op_down o cl :
  (closing cl = true → closing (exec_op o cl).1 = true)
  ∧ (shutdown cl = true → shutdown (exec_op o cl).1 = true).
Proof.
  destruct o as [cv|call|s|err| |err call|call|ch]; simpl.
  - done.
  - unfold registerCall. by destruct (closing cl || shutdown cl).
  - done.
  - destruct (terminate_loop_frame err (map_to_list (pending cl))
                (set_shutdown true cl)) as (_ & _ & Hc & Hsh & _).
    destruct (terminate_loop _ _ _) as [cl1 ret]. simpl in *.
    rewrite Hc, Hsh. done.
  - unfold Close. destruct (closing cl) eqn:Hc; simpl; [done|].
    by destruct (codec.Close (c cl)).
  - destruct (complete err call cl) as [cl1|] eqn:Hc; simpl; [|done].
    destruct (complete_frame _ _ _ _ Hc) as (_ & _ & -> & ->). done.
  - destruct (done call cl) as [cl1|] eqn:Hd; simpl; [|done].
    destruct (done_Some _ _ _ Hd) as (_ & _ & -> & -> & _). done.
  - unfold recv. by destruct (buffer ch cl).
Qed.

(** A registration succeeds exactly on a client that [IsAvailable] calls
    available, and a client that is not available never becomes available
    again: no operation clears [closing] or [shutdown]. *)
Theorem IsAvailable_is_final cl :
  (∀ call, IsAvailable cl = true ↔ (registerCall call cl).2.2 = None)
  ∧ (∀ (ops : list (op V)) evs,
       IsAvailable cl = false →
       IsAvailable (run_ops ops (cl, evs)).1 = false
       ∧ ∀ call, (registerCall call (run_ops ops (cl, evs)).1).2
                 = (0%N, Some ErrShutdown)).
Proof.
  split.
  - intros call. unfold IsAvailable, registerCall.
    destruct (closing cl), (shutdown cl); simpl; split; done.
  - intros ops evs Hdown.
    assert (IsAvailable (run_ops ops (cl, evs)).1 = false) as Hfin.
    { revert cl evs Hdown. induction ops as [|o ops IH]; intros cl evs Hdown;
        [done|].
      simpl. destruct (exec_op_down o cl) as [Hc Hs].
      destruct (exec_op o cl) as [cl1 evs1]. simpl in *.
      assert (IsAvailable cl1 = false) as Hdown1.
      { unfold IsAvailable in *.
        destruct (closing cl); [by rewrite Hc, andb_false_r|].
        destruct (shutdown cl); [by rewrite Hs|done]. }
      by apply IH. }
    split; [done|]. intros call. unfold IsAvailable, registerCall in *.
    set (cl' := (run_ops ops (cl, evs)).1) in *.
    by destruct (closing cl'), (shutdown cl').
Qed.

(** [send] on a client that is closing or shut down registers nothing and
    writes nothing: it is the completion of the call with [ErrShutdown].
    It returns when the [Done] channel of the call has room, and then the
    call has been delivered on that channel with [ErrShutdown] and the
    client's table, counter and connection are as before. *)
Theorem send_when_down cl call cv :
  IsAvailable cl = false → calls cl !! call = Some cv →
  send call cl = complete ErrShutdown call cl
  ∧ (has_room (Done cv) cl = true → is_Some (send call cl))
  ∧ ∀ cl', send call cl = Some cl' →
           completed ErrShutdown call cl'
           ∧ pending cl' = pending cl ∧ seq cl' = seq cl ∧ c cl' = c cl.
Proof.
  intros Hdown Hcv.
  assert (send call cl = complete ErrShutdown call cl) as Hsend.
  { unfold send, registerCall, IsAvailable in *.
    by destruct (closing cl), (shutdown cl). }
  rewrite Hsend. split_and!; [done| |].
  - intros Hroom. unfold complete, done, assign; simpl.
    rewrite lookup_alter_eq, Hcv. simpl.
    unfold has_room, buffer in *; simpl. rewrite Hroom. by eexists.
  - intros cl' Hc.
    destruct (complete_frame _ _ _ _ Hc) as (Hp & Hs & _).
    split_and!; try done.
    + eapply complete_completes; [|done]. by eexists.
    + unfold complete in Hc. by destruct (done_connection _ _ _ Hc) as [-> _].
Qed.

(** A reply that arrives for a call that has been cancelled is dropped:
    the receive loop finds no entry under its sequence number, skips the
    body with [ReadBody(nil)], touches no call and sends on no channel. *)
Theorem cancelled_reply_is_dropped cl call cv cc h :
  calls cl !! call = Some cv →
  codec.ReadHeader (c (cancel call cl)) = (cc, inl h) →
  codec.Seq h = Seq cv →
  ∃ cl', receive_iter (cancel call cl)
         = Some (cl', (codec.ReadBody false cc).2)
         ∧ c cl' = (codec.ReadBody false cc).1
         ∧ calls cl' = calls cl ∧ chans cl' = chans cl
         ∧ pending cl' = delete (Seq cv) (pending cl).
Proof.
  intros Hcv Hh Hseq. unfold receive_iter. rewrite Hh. simpl.
  unfold cancel. rewrite Hcv. simpl. rewrite Hseq, lookup_delete_eq.
  destruct (codec.ReadBody false cc) as [cc' e]. simpl.
  eexists. split; [done|]. simpl. split_and!; try done.
  apply delete_delete_eq.
Qed.

(** Correlation by sequence number.  When a header arrives whose number
    has an entry in the pending table and the [Done] channel of that call
    has room, the iteration takes the entry out and delivers exactly that
    call on its channel; no other call is touched.  The call's [Error] is
    built from the header's error text if that is not empty; otherwise
    the body is read into the reply, and [Error] is set only if reading
    fails. *)
Theorem receive_iter_delivers cl cc h p cv :
  codec.ReadHeader (c cl) = (cc, inl h) →
  pending cl !! codec.Seq h = Some p →
  calls cl !! p = Some cv →
  has_room (Done cv) cl = true →
  let body := codec.ReadBody (bool_decide (codec.Error h = "")) cc in
  ∃ cl', receive_iter cl = Some (cl', body.2)
    ∧ c cl' = body.1
    ∧ pending cl' = delete (codec.Seq h) (pending cl)
    ∧ buffer (Done cv) cl' = buffer (Done cv) cl ++ [p]
    ∧ (∀ ch, ch ≠ Done cv → buffer ch cl' = buffer ch cl)
    ∧ (∀ q, q ≠ p → calls cl' !! q = calls cl !! q)
    ∧ calls cl' !! p
      = Some (set_Error
                (if bool_decide (codec.Error h = "") then
                   match body.2 with
                   | Some e => Some (errorString ("reading body " +:+ err_Error e))
                   | None => Error cv
                   end
                 else Some (errorString (Errorf_text (codec.Error h))))
                cv).
Proof.
  intros Hh Hp Hcv Hroom body. unfold receive_iter. rewrite Hh. simpl.
  rewrite Hp. subst body.
  assert (∀ (x : Client_ V C) cv',
            calls x !! p = Some cv' → Done cv' = Done cv →
            chans x = chans cl →
            ∃ x', done p x = Some x'
                  ∧ c x' = c x ∧ pending x' = pending x ∧ calls x' = calls x
                  ∧ buffer (Done cv) x' = buffer (Done cv) cl ++ [p]
                  ∧ ∀ ch, ch ≠ Done cv → buffer ch x' = buffer ch cl)
    as Hdone.
  { intros x cv' Hx Hd Hch. unfold done. rewrite Hx, Hd.
    unfold has_room, buffer in *. rewrite Hch, Hroom.
    eexists. split; [done|]. simpl. split_and!; try done.
    - by rewrite lookup_insert_eq.
    - intros ch Hne. by rewrite lookup_insert_ne. }
  case_bool_decide as Herr; simpl.
  - destruct (codec.ReadBody true cc) as [cc' [e|]] eqn:Hb; simpl.
    + edestruct (Hdone (assign (errorString ("reading body " +:+ err_Error e)) p
                          (set_c cc' (set_pending (delete (codec.Seq h) (pending cl))
                                        (set_c cc cl)))))
        as (x' & -> & Hc & Hpe & Hca & Hbuf & Hoth).
      { unfold assign; simpl. by rewrite lookup_alter_eq, Hcv. }
      { done. }
      { done. }
      simpl. exists x'. split_and!; try done.
      * intros q Hq. rewrite Hca. unfold assign; simpl.
        by rewrite lookup_alter_ne.
      * rewrite Hca. unfold assign; simpl. by rewrite lookup_alter_eq, Hcv.
    + edestruct (Hdone (set_c cc' (set_pending (delete (codec.Seq h) (pending cl))
                                     (set_c cc cl))))
        as (x' & -> & Hc & Hpe & Hca & Hbuf & Hoth); [exact Hcv|done|done|].
      simpl. exists x'. split_and!; try done.
      * intros q Hq. by rewrite Hca.
      * rewrite Hca. simpl. rewrite Hcv. by destruct cv.
  - destruct (codec.ReadBody false cc) as [cc' e] eqn:Hb; simpl.
    edestruct (Hdone (set_c cc'
                        (assign (errorString (Errorf_text (codec.Error h))) p
                           (set_pending (delete (codec.Seq h) (pending cl))
                              (set_c cc cl)))))
      as (x' & -> & Hc & Hpe & Hca & Hbuf & Hoth).
    { unfold assign; simpl. by rewrite lookup_alter_eq, Hcv. }
    { done. }
    { done. }
    simpl. exists x'. split_and!; try done.
    + intros q Hq. rewrite Hca. unfold assign; simpl.
      by rewrite lookup_alter_ne.
    + rewrite Hca. unfold assign; simpl. by rewrite lookup_alter_eq, Hcv.
Qed.

End client_more.

Lemma IsAvailable_is_final_witness :
  Client.IsAvailable
    (Client.run_ops
       [Client.OpNew fixtures.Sum_call; Client.OpRegister 2%positive;
        Client.OpRecv (1%positive, 1%nat)]
       ((Client.Close fixtures.busy_client).1, [])).1
  = false.
Proof.
  destruct (IsAvailable_is_final (Client.Close fixtures.busy_client).1)
    as [_ Hfinal].
  refine (proj1 (Hfinal
                   [Client.OpNew fixtures.Sum_call; Client.OpRegister 2%positive;
                    Client.OpRecv (1%positive, 1%nat)] [] _)).
  reflexivity.
Defined.

Lemma send_when_down_witness :
  ∃ cl', Client.send 1%positive (Client.Close fixtures.busy_client).1
         = Some cl'
         ∧ Client.completed ErrShutdown 1%positive cl'.
Proof.
  destruct (send_when_down (Client.Close fixtures.busy_client).1 1%positive
              (Client.set_Seq 1 fixtures.Sum_call))
    as (_ & Hret & Hdone).
  - reflexivity.
  - reflexivity.
  - destruct (Hret eq_refl) as [cl' Hcl'].
    exists cl'. split; [exact Hcl'|]. exact (proj1 (Hdone cl' Hcl')).
Defined.

Lemma cancelled_reply_is_dropped_witness :
  ∃ cl', Client.receive_iter
           (Client.cancel 1%positive fixtures.answered_client)
         = Some (cl', None)
         ∧ Client.chans cl' = ∅.
Proof.
  destruct (cancelled_reply_is_dropped fixtures.answered_client 1%positive
              (Client.set_Seq 1 fixtures.Sum_call) [] fixtures.Sum_reply)
    as (cl' & Hrecv & _ & _ & Hchans & _).
  - reflexivity.
  - reflexivity.
  - reflexivity.
  - exists cl'. split; [exact Hrecv | exact Hchans].
Defined.

Lemma receive_iter_delivers_witness :
  ∃ cl', Client.receive_iter fixtures.answered_client = Some (cl', None)
         ∧ Client.buffer (1%positive, 1%nat) cl' = [1%positive]
         ∧ Client.pending cl' = ∅.
Proof.
  destruct (receive_iter_delivers fixtures.answered_client [] fixtures.Sum_reply
              1%positive (Client.set_Seq 1 fixtures.Sum_call))
    as (cl' & Hrecv & _ & Hpend & Hbuf & _).
  - reflexivity.
  - reflexivity.
  - reflexivity.
  - reflexivity.
  - exists cl'. split; [exact Hrecv|]. split; [exact Hbuf|].
    rewrite Hpend. reflexivity.
Defined.

(* ===================================================================== *)
(** * Further properties of the discovery *)
(* ===================================================================== *)

Section discovery_more.
Import xclient.
Context {R : Type} {rnd : Rand R}.
Implicit Types (h : heap) (d : MultiServersDiscovery R) (sl : slice).

Lemma Get_RoundRobin_step h d :
  let n := Z.of_nat (len (servers d)) in
  (1 ≤ n)%Z → valid h (servers d) → (0 ≤ index d < MaxInt)%Z →
  ∃ s, Get RoundRobinSelect h d
       = Some (mkDiscovery (r d) (servers d) ((index d + 1) mod n)%Z, (s, None))
       ∧ elems h (servers d) !! Z.to_nat (index d mod n) = Some s.
Proof.
  intros n Hn Hvalid Hidx.
  pose proof (elems_length _ _ Hvalid) as Hlen.
  unfold Get. fold n. destruct (Z.eqb_spec n 0) as [|_]; [lia|]. simpl.
  unfold int_rem, MaxInt in *. rewrite int_add_small by lia.
  rewrite !Z.rem_mod_nonneg by lia.
  pose proof (Z.mod_pos_bound (index d) n) as Hb.
  unfold slice_get. fold n.
  destruct (Z.leb_spec 0 (index d mod n)); [|lia].
  destruct (Z.ltb_spec (index d mod n) n); [|lia]. simpl.
  destruct (lookup_lt_is_Some_2 (elems h (servers d))
              (Z.to_nat (index d mod n))) as [s Hs]; [lia|].
  exists s. by rewrite Hs.
Qed.

(** Round robin visits the servers in order: on a list of [n ≥ 1] servers
    that is not updated in between, the call number [j] of [k] calls in a
    row returns the server at position [(index + j) mod n], so [n] calls
    in a row return every server once; only the index changes. *)
Theorem round_robin_cycles h d k :
  let n := Z.of_nat (len (servers d)) in
  (1 ≤ n ≤ MaxInt)%Z → valid h (servers d) → (0 ≤ index d < MaxInt)%Z →
  ∃ d' l,
    Get_repeat RoundRobinSelect k h d = Some (d', l)
    ∧ length l = k
    ∧ (∀ j, (j < k)%nat →
            l !! j
            = elems h (servers d) !! Z.to_nat ((index d + Z.of_nat j) mod n))
    ∧ servers d' = servers d ∧ r d' = r d
    ∧ ((0 < k)%nat → index d' = ((index d + Z.of_nat k) mod n)%Z).
Proof.
  intros n Hn Hvalid. revert d n Hn Hvalid.
  induction k as [|k IH]; intros d n Hn Hvalid Hidx.
  - exists d, []. simpl. split_and!; try done; lia.
  - destruct (Get_RoundRobin_step h d) as (s & Hget & Hs); [lia|done|done|].
    fold n in Hget, Hs.
    set (d1 := mkDiscovery (r d) (servers d) ((index d + 1) mod n)%Z) in *.
    pose proof (Z.mod_pos_bound (index d + 1) n) as Hb1.
    destruct (IH d1) as (d' & l & Hrep & Hlen & Hl & Hsv & Hr & Hi).
    { simpl. fold n. lia. }
    { done. }
    { simpl. unfold MaxInt in *. lia. }
    simpl in Hl, Hsv, Hr, Hi. fold n in Hl, Hi.
    exists d', (s :: l). simpl. rewrite Hget, Hrep.
    split_and!; try done.
    + by rewrite Hlen.
    + intros [|j] Hj; simpl.
      * by rewrite Z.add_0_r, Hs.
      * rewrite Hl by lia. do 2 f_equal.
        rewrite Z.add_mod_idemp_l by lia. f_equal. lia.
    + intros _. destruct k as [|k'].
      * simpl in Hrep. injection Hrep as <- _. simpl. done.
      * rewrite Hi by lia. rewrite Z.add_mod_idemp_l by lia. f_equal. lia.
Qed.

(** [Update] and [NewMultiServerDiscovery] keep the caller's slice, they do
    not copy it: an element that the caller stores through its slice
    afterwards is the element that the discovery sees at that position. *)
Theorem Update_shares_the_callers_array h d sl (r0 : R) i v :
  valid h sl → (i < len sl)%nat →
  ∃ h', slice_set sl i v h = Some h'
        ∧ elems h' (servers (Update sl d).1) = <[i := v]> (elems h sl)
        ∧ elems h' (servers (NewMultiServerDiscovery r0 sl))
          = <[i := v]> (elems h sl)
        ∧ elems h' sl !! i = Some v.
Proof.
  intros Hvalid Hi. unfold slice_set.
  destruct (Nat.ltb_spec i (len sl)) as [_|]; [|lia].
  eexists. split; [done|].
  assert (elems (alter (λ a, <[(off sl + i)%nat:=v]> a) (arr sl) h) sl
          = <[i := v]> (elems h sl)) as Hel.
  { unfold elems. rewrite lookup_alter_eq.
    destruct Hvalid as [Hnil|(a & Ha & Hle)]; [lia|]. rewrite Ha. simpl.
    rewrite drop_insert_ge by lia. rewrite take_insert_lt by lia.
    do 2 f_equal. lia. }
  split_and!.
  - done.
  - unfold NewMultiServerDiscovery. by destruct (Intn _ _).
  - rewrite Hel. apply list_lookup_insert_eq.
    pose proof (elems_length _ _ Hvalid). lia.
Qed.

End discovery_more.

Lemma round_robin_cycles_witness :
  ∃ d', xclient.Get_repeat xclient.RoundRobinSelect 3
          fixtures.servers_heap fixtures.three_servers
        = Some (d', ["tcp@10.0.0.2:9002"; "tcp@10.0.0.3:9003";
                     "tcp@10.0.0.1:9001"]).
Proof.
  destruct (round_robin_cycles fixtures.servers_heap fixtures.three_servers 3)
    as (d' & l & Hrep & _).
  - unfold xclient.MaxInt. simpl. lia.
  - exact fixture_servers_valid.
  - unfold xclient.MaxInt. simpl. lia.
  - exists d'. rewrite Hrep. f_equal. f_equal.
    vm_compute in Hrep. by injection Hrep as _ <-.
Defined.

Lemma Update_shares_the_callers_array_witness :
  ∃ h', xclient.slice_set fixtures.servers_slice 0 "tcp@10.0.0.9:9009"
          fixtures.servers_heap = Some h'
        ∧ xclient.elems h' (xclient.servers fixtures.three_servers) !! 0%nat
          = Some "tcp@10.0.0.9:9009".
Proof.
  destruct (Update_shares_the_callers_array fixtures.servers_heap
              fixtures.three_servers fixtures.servers_slice 0%Z
              0 "tcp@10.0.0.9:9009")
    as (h' & Hset & _ & _ & Hget).
  - exact fixture_servers_valid.
  - simpl. lia.
  - exists h'. split; [exact Hset | exact Hget].
Defined.

(* ===================================================================== *)
(** * The handshake, from the caller's option to the server's decision *)
(* ===================================================================== *)

Section handshake_facts.
Import Server.
Context {V C : Type} {cdc : codec.Codec V C}.

Lemma known_codec t :
  t ∈ codec.NewCodecFuncMap ↔ t = codec.GobType.
Proof. unfold codec.NewCodecFuncMap. by rewrite elem_of_singleton. Qed.

(** What becomes of one option that a caller hands to [Dial], when the
    server decodes the option as the client has sent it.  With the
    current client the server serves the connection exactly when the
    caller's magic number is the protocol's and the caller's codec type
    is empty or gob; a caller who tampers with the magic number is turned
    away by the server.  With the earlier client the caller's magic
    number does not matter.  [NewClient] refuses exactly the codec types
    that the server would refuse, before anything is sent, and what it
    refuses leaves no client behind. *)
Theorem handshake_after_parseOptions (o : Option_) (conn : C) :
  let sent := (Client.parseOptions [Some o]).1 in
  let sent3 := (ClientV3.parseOptions [Some o]).1 in
  let codec_ok := CodecType o = "" ∨ CodecType o = codec.GobType in
  (∃ o1, sent = Some o1
         ∧ ((∃ cl, Client.NewClient (V := V) conn None o1 = (Some cl, None)
                   ∧ Client.opt cl = o1 ∧ Client.seq cl = 1%N
                   ∧ Client.pending cl = ∅)
            ↔ codec_ok)
         ∧ (¬ codec_ok →
              Client.NewClient (V := V) conn None o1
              = (None, Some (errorString ("invalid codec type " +:+ CodecType o))))
         ∧ (ServeConn (inr o1) = Serving o1
            ↔ OptMagicNumber o = MagicNumber ∧ codec_ok)
         ∧ (OptMagicNumber o ≠ MagicNumber →
              ServeConn (inr o1) = InvalidMagicNumber (OptMagicNumber o)))
  ∧ (∃ o3, sent3 = Some o3
           ∧ OptMagicNumber o3 = MagicNumber
           ∧ (ServeConn (inr o3) = Serving o3 ↔ codec_ok)).
Proof.
  intros sent sent3 codec_ok. destruct o as [m ct ctm htm].
  unfold sent, sent3, codec_ok, Client.parseOptions, ClientV3.parseOptions.
  simpl. split.
  - eexists. split; [done|].
    case_bool_decide as Hct; simpl.
    + subst ct. split_and!.
      * split; [by left|]. intros _. unfold Client.NewClient; simpl.
        eexists. by split_and!.
      * intros Hn. exfalso. apply Hn. by left.
      * unfold ServeConn; simpl. destruct (Z.eqb_spec m MagicNumber); simpl.
        -- split; [by split; [|left]|done].
        -- split; [done|]. by intros [? _].
      * intros Hm. unfold ServeConn; simpl.
        by destruct (Z.eqb_spec m MagicNumber).
    + assert (ct ∈ codec.NewCodecFuncMap ↔ ct = codec.GobType) as Hk
        by apply known_codec.
      split_and!.
      * unfold Client.NewClient; simpl. case_bool_decide as Hin; simpl.
        -- split; [intros _; right; by apply Hk|]. intros _.
           eexists. by split_and!.
        -- split; [by intros (cl & [=] & _)|].
           intros [?|?]; [done|]. exfalso. by apply Hin, Hk.
      * intros Hn. unfold Client.NewClient; simpl.
        rewrite bool_decide_eq_false_2; [done|].
        intros Hin%Hk. apply Hn. by right.
      * unfold ServeConn; simpl. destruct (Z.eqb_spec m MagicNumber); simpl.
        -- case_bool_decide as Hin; simpl.
           ++ split; [intros _; split; [done|right; by apply Hk]|done].
           ++ split; [done|]. intros [_ [?|?]]; [done|].
              exfalso. by apply Hin, Hk.
        -- split; [done|]. by intros [? _].
      * intros Hm. unfold ServeConn; simpl.
        by destruct (Z.eqb_spec m MagicNumber).
  - eexists. split; [done|].
    case_bool_decide as Hct; simpl.
    + subst ct. split; [done|]. unfold ServeConn; simpl.
      split; [by left|done].
    + assert (ct ∈ codec.NewCodecFuncMap ↔ ct = codec.GobType) as Hk
        by apply known_codec.
      split; [done|]. unfold ServeConn; simpl.
      case_bool_decide as Hin; simpl.
      * split; [intros _; right; by apply Hk|done].
      * split; [done|]. intros [?|?]; [done|]. exfalso. by apply Hin, Hk.
Qed.

End handshake_facts.

Lemma handshake_after_parseOptions_witness :
  Server.ServeConn
    (inr (Server.mkOption 123456 codec.GobType 0 0))
  = Server.InvalidMagicNumber 123456.
Proof.
  destruct (handshake_after_parseOptions (V := string)
              (Server.mkOption 123456 codec.GobType 0 0) tt)
    as [(o1 & Hsent & _ & _ & _ & Hbad) _].
  injection Hsent as <-. apply Hbad. discriminate.
Defined.
